(** * horovod/data/data_loader_base.py: the asynchronous data loader

    A shallow embedding of [BaseDataLoader] and [AsyncDataLoaderMixin].
    The mixin runs two threads, the caller of [__iter__] and
    [close_async_loader] and the worker thread running [_async_worker],
    which share a bounded [Queue] and an [Event].  Each thread is a small
    program-counter machine whose counters are the line numbers of the
    Python source; a schedule interleaves them, and every step reports the
    events an observer would see (puts, gets, yields, raises). *)

From stdpp Require Import numbers strings option list.

Local Open Scope Z_scope.

(** ** Python values *)

(** What a raised object is an instance of.  [except Exception] catches the
    first two kinds.  [StopIteration] is an [Exception] too, but it is set
    apart because a generator never lets it out as itself. *)
Inductive exn :=
| Exception (msg : string)         (* Exception or a subclass, StopIteration apart *)
| StopIterationExc (msg : string)  (* StopIteration or one of its subclasses *)
| BaseException (msg : string).    (* outside Exception: KeyboardInterrupt, SystemExit *)

(** [isinstance(e, Exception)]. *)
Definition is_Exception (e : exn) : bool :=
  match e with BaseException _ => false | _ => true end.

(** [RuntimeError("generator raised StopIteration")]. *)
Definition RuntimeError : exn := Exception "generator raised StopIteration".

(** An exception that leaves the body of a generator: a [StopIteration]
    reaches the caller of the generator as that [RuntimeError], anything
    else as itself. *)
Definition leaving_generator (e : exn) : exn :=
  match e with
  | StopIterationExc _ => RuntimeError
  | _ => e
  end.

(** The objects that travel through the queue.  The queue is untyped: a
    batch is any object, [None] and exception instances included. *)
Inductive pyobj :=
| PyNone
| PyExn (e : exn)
| PyObj (repr : string).

Definition is_None (v : pyobj) : bool :=
  match v with PyNone => true | _ => false end.

Definition isinstance_Exception (v : pyobj) : bool :=
  match v with PyExn e => is_Exception e | _ => false end.

(** A batch that is neither the sentinel nor an [Exception] instance. *)
Definition is_data (v : pyobj) : bool :=
  negb (is_None v) && negb (isinstance_Exception v).

(** ** Generators: what one call of [self._iterate()] returns *)

(** How the [for] statement over a pass is left.  A [StopIteration] raised
    by the iterator's own [__next__] ends the loop and is [StopIteration]
    here; [Raises (StopIterationExc _)] is one that does leave the
    statement, as when the call of [_iterate] itself raises it. *)
Inductive ending :=
| StopIteration          (* the iterator is exhausted: the loop ends *)
| Raises (e : exn).      (* the exception [e] leaves the [for] statement *)

Record generator := Generator { items : list pyobj; ending_of : ending }.

(** How a generator whose [for] statement is left that way ends. *)
Definition generator_ending (e : ending) : ending :=
  match e with
  | StopIteration => StopIteration
  | Raises x => Raises (leaving_generator x)
  end.

Inductive next_result :=
| Yields (batch : pyobj) (g : generator)
| Ends (e : ending).

Definition next (g : generator) : next_result :=
  match items g with
  | batch :: rest => Yields batch (Generator rest (ending_of g))
  | [] => Ends (ending_of g)
  end.

(** ** The loader's overridable methods

    [_iterate n] is the generator returned by the call number [n] (from 0)
    of [self._iterate()], so the passes of a restartable source may differ. *)
Record DataLoader := {
  _iterate : nat → generator;
  _process_batch : pyobj → pyobj
}.

(** ** queue.Queue *)

Module Queue.

Record t := Make { maxsize : Z; elems : list pyobj }.

Definition qsize (q : t) : Z := Z.of_nat (length (elems q)).

(** [Queue.full]: a queue with [maxsize <= 0] is never full. *)
Definition full (q : t) : bool := (0 <? maxsize q) && (maxsize q <=? qsize q).

(** [put] blocks ([None]) while the queue is full. *)
Definition put (v : pyobj) (q : t) : option t :=
    if full q then None else Some (Make (maxsize q) (elems q ++ [v])).

(** [get] blocks ([None]) while the queue is empty. *)
Definition get (q : t) : option (pyobj * t) :=
    match elems q with
    | [] => None
    | v :: rest => Some (v, Make (maxsize q) rest)
    end.

(** [get_nowait] raises [Empty] ([None]) on an empty queue. *)
Definition get_nowait (q : t) : option (pyobj * t) := get q.

End Queue.

(** ** Observable events *)

(** The five [self.queue.put] calls of [_async_worker], by source line. *)
Inductive put_site := L101 | L102 | L104 | L105 | L107.

Inductive event :=
| EStart                              (* self.thread.start() *)
| EPut (site : put_site) (v : pyobj)  (* a put of the worker returned *)
| EFault (e : exn)                    (* the worker's generator raised e *)
| EExit                               (* the worker thread ended *)
| EGet (v : pyobj)                    (* self.queue.get() returned v *)
| EDrain (v : pyobj)                  (* self.queue.get_nowait() returned v *)
| EYield (v : pyobj)                  (* __iter__ yielded v to its caller *)
| EStop                               (* __iter__ ended (StopIteration) *)
| ERaise (e : exn)                    (* the caller of __iter__ got the exception e *)
| EAbandon                            (* the caller dropped a suspended iterator *)
| EClosed.                            (* close_async_loader returned *)

(** ** The object and its two threads *)

(** Program counter of [_async_worker]; the number is the source line the
    thread is about to execute. *)
Inductive wpc :=
| W97                                      (* while not self.finished_event.is_set() *)
| W98 (g : generator)                      (* for batch in g *)
| W99 (batch : pyobj) (g : generator)      (* if self.finished_event.is_set() *)
| W101 (batch : pyobj) (g : generator)     (* self.queue.put(batch) *)
| W102                                     (* self.queue.put(None) *)
| W104 (ex : exn)                          (* self.queue.put(ex) *)
| W105                                     (* self.queue.put(None) *)
| W107 (pending : option exn).             (* finally: self.queue.put(None) *)

Inductive thread_state :=
| Unstarted
| Running (pc : wpc)
| Exited.

(** Program counter of the calling thread. *)
Inductive cpc :=
| Caller                   (* in the caller's own code *)
| I116                     (* iterator created, body not yet run *)
| I122                     (* batch = self.queue.get() *)
| I127                     (* suspended at the yield of line 127 *)
| I129 (g : generator)     (* for batch in g (synchronous) *)
| I130 (g : generator)     (* suspended at the yield of line 130 *)
| C79                      (* close_async_loader: the test of line 79 *)
| C84                      (* self.queue.get_nowait() *)
| C88.                     (* self.thread.join() *)

(** The attributes [__init__] creates only when [async_loader_queue_size > 0]. *)
Record async_attrs := AsyncAttrs {
  finished_event : bool;
  queue : Queue.t;
  thread : thread_state;
  started : bool
}.

Record state := State {
  async_loader_queue_size : Z;
  attrs : option async_attrs;
  iterate_calls : nat;       (* calls of self._iterate() made so far *)
  consumer : cpc
}.

Definition set_queue (q : Queue.t) (a : async_attrs) : async_attrs :=
  AsyncAttrs (finished_event a) q (thread a) (started a).
Definition set_thread (t : thread_state) (a : async_attrs) : async_attrs :=
  AsyncAttrs (finished_event a) (queue a) t (started a).

(** ** BaseDataLoader *)

Module BaseDataLoader.

(** [_process_batch] as the base class defines it. *)
Definition _process_batch (batch : pyobj) : pyobj := batch.

(** [__iter__] run to its end on the pass [g]: the batches it yields and
      how it ends.  It is a generator: what leaves its [for] statement
      leaves the generator. *)
Definition __iter__ (process_batch : pyobj → pyobj) (g : generator)
    : list pyobj * ending :=
    (process_batch <$> items g, generator_ending (ending_of g)).

(** [__len__] and [_iterate] as the base class defines them: both raise
    [NotImplementedError]. *)
Definition NotImplementedError : exn := Exception "NotImplementedError".

Definition __len__ : exn + Z := inl NotImplementedError.

Definition _iterate : generator := Generator [] (Raises NotImplementedError).

End BaseDataLoader.

(** ** AsyncDataLoaderMixin *)

Module AsyncDataLoaderMixin.

(** [__init__]: [inl e] would be a raised [e]; the code has no such path. *)
Definition __init__ (async_loader_queue_size : Z) : exn + state :=
    inr (State async_loader_queue_size
           (if 0 <? async_loader_queue_size
            then Some (AsyncAttrs false (Queue.Make async_loader_queue_size [])
                         Unstarted false)
            else None)
           0%nat Caller).

Section Methods.
Context (L : DataLoader).

(** One step of [_async_worker] at [pc]; [n] counts the calls of
        [self._iterate()].  [None]: the thread is blocked in [put]. *)
Definition _async_worker (pc : wpc) (a : async_attrs) (n : nat)
      : option (thread_state * async_attrs * nat * list event) :=
      match pc with
      | W97 =>
          if finished_event a
          then Some (Running (W107 None), a, n, [])
          else Some (Running (W98 (_iterate L n)), a, S n, [])
      | W98 g =>
          match next g with
          | Yields batch g' => Some (Running (W99 batch g'), a, n, [])
          | Ends StopIteration => Some (Running W102, a, n, [])
          | Ends (Raises e) =>
              if is_Exception e                     (* except Exception as ex *)
              then Some (Running (W104 e), a, n, [EFault e])
              else Some (Running (W107 (Some e)), a, n, [EFault e])
          end
      | W99 batch g =>
          if finished_event a
          then Some (Running W102, a, n, [])
          else Some (Running (W101 batch g), a, n, [])
      | W101 batch g =>
          q ← Queue.put batch (queue a);
          Some (Running (W98 g), set_queue q a, n, [EPut L101 batch])
      | W102 =>
          q ← Queue.put PyNone (queue a);
          Some (Running W97, set_queue q a, n, [EPut L102 PyNone])
      | W104 ex =>
          q ← Queue.put (PyExn ex) (queue a);
          Some (Running W105, set_queue q a, n, [EPut L104 (PyExn ex)])
      | W105 =>
          q ← Queue.put PyNone (queue a);
          Some (Running (W107 None), set_queue q a, n, [EPut L105 PyNone])
      | W107 pending =>
          q ← Queue.put PyNone (queue a);
          Some (Exited, set_queue q a, n, [EPut L107 PyNone; EExit])
      end.

(** What happens to the object popped at line 122.  [raise batch] runs in
        the body of the generator [__iter__], so the caller gets the batch
        as it leaves a generator. *)
Definition dispatch (batch : pyobj) : cpc * list event :=
      match batch with
      | PyNone => (Caller, [EStop])                                 (* break *)
      | PyExn e =>
          if is_Exception e
          then (Caller, [ERaise (leaving_generator e)])             (* raise batch *)
          else (I127, [EYield (_process_batch L batch)])            (* yield *)
      | _ => (I127, [EYield (_process_batch L batch)])              (* yield *)
      end.

(** One step of the generator [__iter__] at [pc].  [None]: blocked in
        [get], or [pc] is not a line of [__iter__]. *)
Definition __iter__ (pc : cpc) (s : state) : option (state * list event) :=
      match pc with
      | I116 =>
          if 0 <? async_loader_queue_size s then
            a ← attrs s;
            if started a
            then Some (State (async_loader_queue_size s) (Some a)
                         (iterate_calls s) I122, [])
            else Some (State (async_loader_queue_size s)
                         (Some (AsyncAttrs (finished_event a) (queue a)
                                  (Running W97) true))
                         (iterate_calls s) I122, [EStart])
          else
            Some (State (async_loader_queue_size s) (attrs s)
                    (S (iterate_calls s)) (I129 (_iterate L (iterate_calls s))), [])
      | I122 =>
          a ← attrs s;
          '(batch, q) ← Queue.get (queue a);
          let '(pc', evs) := dispatch batch in
          Some (State (async_loader_queue_size s) (Some (set_queue q a))
                  (iterate_calls s) pc', EGet batch :: evs)
      | I127 =>
          Some (State (async_loader_queue_size s) (attrs s) (iterate_calls s) I122, [])
      | I129 g =>
          match next g with
          | Yields batch g' =>
              Some (State (async_loader_queue_size s) (attrs s) (iterate_calls s)
                      (I130 g'), [EYield (_process_batch L batch)])
          | Ends StopIteration =>
              Some (State (async_loader_queue_size s) (attrs s) (iterate_calls s)
                      Caller, [EStop])
          | Ends (Raises e) =>
              Some (State (async_loader_queue_size s) (attrs s) (iterate_calls s)
                      Caller, [ERaise (leaving_generator e)])
          end
      | I130 g =>
          Some (State (async_loader_queue_size s) (attrs s) (iterate_calls s)
                  (I129 g), [])
      | _ => None
      end.

(** One step of [close_async_loader] at [pc].  [None]: blocked in
        [join], or [pc] is not a line of [close_async_loader]. *)
Definition close_async_loader (pc : cpc) (s : state)
      : option (state * list event) :=
      match pc with
      | C79 =>
          if 0 <? async_loader_queue_size s then
            a ← attrs s;
            if started a
            then Some (State (async_loader_queue_size s)
                         (Some (AsyncAttrs true (queue a) (thread a) (started a)))
                         (iterate_calls s) C84, [])
            else Some (State (async_loader_queue_size s) (Some a)
                         (iterate_calls s) Caller, [EClosed])
          else
            Some (State (async_loader_queue_size s) (attrs s) (iterate_calls s)
                    Caller, [EClosed])
      | C84 =>
          a ← attrs s;
          match Queue.get_nowait (queue a) with
          | Some (v, q) =>
              Some (State (async_loader_queue_size s) (Some (set_queue q a))
                      (iterate_calls s) C84, [EDrain v])
          | None =>
              Some (State (async_loader_queue_size s) (Some a) (iterate_calls s)
                      C88, [])
          end
      | C88 =>
          a ← attrs s;
          match thread a with
          | Exited =>
              Some (State (async_loader_queue_size s) (Some a) (iterate_calls s)
                      Caller, [EClosed])
          | _ => None
          end
      | _ => None
      end.

End Methods.

End AsyncDataLoaderMixin.

Import AsyncDataLoaderMixin.

(** ** Schedules *)

(** What may happen next: a thread takes its next step, or the caller, when
    it is in its own code, begins a call or drops a suspended iterator. *)
Inductive action :=
| Worker
| Consumer
| CallIter
| CallClose
| Abandon.

Definition set_consumer (pc : cpc) (s : state) : state :=
  State (async_loader_queue_size s) (attrs s) (iterate_calls s) pc.

Section System.
Context (L : DataLoader).

(** [None]: the action is not enabled in [s]. *)
Definition step (act : action) (s : state) : option (state * list event) :=
    match act with
    | Worker =>
        a ← attrs s;
        match thread a with
        | Running pc =>
            '(t, a', n, evs) ← _async_worker L pc a (iterate_calls s);
            Some (State (async_loader_queue_size s) (Some (set_thread t a')) n
                    (consumer s), evs)
        | _ => None
        end
    | Consumer =>
        match consumer s with
        | Caller => None
        | C79 | C84 | C88 => close_async_loader (consumer s) s
        | _ => __iter__ L (consumer s) s
        end
    | CallIter =>
        match consumer s with
        | Caller => Some (set_consumer I116 s, [])
        | _ => None
        end
    | CallClose =>
        match consumer s with
        | Caller => Some (set_consumer C79 s, [])
        | _ => None
        end
    | Abandon =>
        match consumer s with
        | I116 | I127 | I130 _ => Some (set_consumer Caller s, [EAbandon])
        | _ => None
        end
    end.

(** An execution: every action of the schedule is enabled when its turn
      comes. *)
Fixpoint run (sched : list action) (s : state) : option (state * list event) :=
    match sched with
    | [] => Some (s, [])
    | act :: rest =>
        '(s1, evs1) ← step act s;
        '(s2, evs2) ← run rest s1;
        Some (s2, evs1 ++ evs2)
    end.

End System.

(** The object [__init__] builds. *)
Definition new (size : Z) : state :=
  match __init__ size with
  | inr s => s
  | inl _ => State size None 0%nat Caller
  end.

(** ** Reading a trace *)

(** The objects the worker has put, in order. *)
Definition puts (tr : list event) : list pyobj :=
  omap (λ e, match e with EPut _ v => Some v | _ => None end) tr.

(** The objects taken out of the queue, by [get] or by [get_nowait]. *)
Definition gets (tr : list event) : list pyobj :=
  omap (λ e, match e with EGet v | EDrain v => Some v | _ => None end) tr.

Definition site_eqb (x y : put_site) : bool :=
  match x, y with
  | L101, L101 | L102, L102 | L104, L104 | L105, L105 | L107, L107 => true
  | _, _ => false
  end.

(** The puts made at one of the given source lines. *)
Definition put_at (sites : list put_site) (e : event) : bool :=
  match e with
  | EPut site _ => existsb (site_eqb site) sites
  | _ => false
  end.

Definition puts_at (sites : list put_site) (tr : list event) : nat :=
  length (filter (λ e, put_at sites e = true) tr).

(** Markers of an ended pass (line 102) and markers of the worker's exit
    (the handler's, line 105, and [finally]'s, line 107). *)
Definition pass_markers : list event → nat := puts_at [L102].
Definition exit_markers : list event → nat := puts_at [L105; L107].

Definition starts (tr : list event) : nat :=
  length (filter (λ e, match e with EStart => true | _ => false end = true) tr).

(** How a pass of [__iter__] ended for its caller. *)
Inductive outcome :=
| Stopped
| Raised (e : exn).

(** The passes of [__iter__] that ran to their end, in order: what each
    yielded and how it ended.  [cur] collects the yields of the pass in
    progress; a dropped iterator completes no pass. *)
Fixpoint passes_from (cur : list pyobj) (tr : list event)
  : list (list pyobj * outcome) :=
  match tr with
  | [] => []
  | EYield v :: tr => passes_from (cur ++ [v]) tr
  | EStop :: tr => (cur, Stopped) :: passes_from [] tr
  | ERaise e :: tr => (cur, Raised e) :: passes_from [] tr
  | EAbandon :: tr => passes_from [] tr
  | _ :: tr => passes_from cur tr
  end.

Definition passes : list event → list (list pyobj * outcome) := passes_from [].

Definition outcome_of (e : ending) : outcome :=
  match e with
  | StopIteration => Stopped
  | Raises ex => Raised ex
  end.

(** What the caller of [__iter__] sees. *)
Definition is_view (e : event) : bool :=
  match e with
  | EYield _ | EStop | ERaise _ | EAbandon => true
  | _ => false
  end.

Definition view (tr : list event) : list event :=
  filter (λ e, is_view e = true) tr.

(** ** The worker and the iterator as sequential programs *)

Section Streams.
Context (L : DataLoader).

(** What a worker that is never signalled puts for the pass [g]. *)
Definition pass_stream (g : generator) : list pyobj :=
    items g ++
    match ending_of g with
    | StopIteration => [PyNone]
    | Raises e =>
        if is_Exception e then [PyExn e; PyNone; PyNone] else [PyNone]
    end.

(** What it puts during its passes [k], ..., [k + n - 1]; a pass that
      raises is the last one. *)
Fixpoint worker_stream (k n : nat) : list pyobj :=
    match n with
    | O => []
    | S n' =>
        pass_stream (_iterate L k) ++
        match ending_of (_iterate L k) with
        | StopIteration => worker_stream (S k) n'
        | Raises _ => []
        end
    end.

(** The event by which [__iter__] answers the object popped at line 122. *)
Definition classify (v : pyobj) : event :=
    match v with
    | PyNone => EStop
    | PyExn e =>
        if is_Exception e then ERaise (leaving_generator e)
        else EYield (_process_batch L v)
    | _ => EYield (_process_batch L v)
    end.

(** The pass number [j] read directly from the source, as
      [BaseDataLoader.__iter__] does. *)
Definition direct (j : nat) : list pyobj * outcome :=
    let '(ys, e) := BaseDataLoader.__iter__ (_process_batch L) (_iterate L j) in
    (ys, outcome_of e).

(** All objects of the passes [0..j] together with their markers. *)
Definition upto (j : nat) : nat := length (worker_stream 0 (S j)).

(** A pass that ends normally and whose batches are ordinary data. *)
Definition clean (g : generator) : Prop :=
    ending_of g = StopIteration ∧ Forall (λ v, is_data v = true) (items g).

Definition all_exhausted (k : nat) : Prop :=
    ∀ i, (i < k)%nat → ending_of (_iterate L i) = StopIteration.

(** *** Invariants *)

(** What the worker at [pc] still puts before its current pass is over. *)
Definition wrest (pc : wpc) : list pyobj :=
    match pc with
    | W97 => []
    | W98 g => pass_stream g
    | W99 batch g | W101 batch g => batch :: pass_stream g
    | W102 => [PyNone]
    | W104 ex => [PyExn ex; PyNone; PyNone]
    | W105 => [PyNone; PyNone]
    | W107 _ => [PyNone]
    end.

Definition wend_ok (pc : wpc) (e : ending) : Prop :=
    match pc with
    | W97 => False
    | W98 g | W99 _ g | W101 _ g => ending_of g = e
    | W102 => e = StopIteration
    | W104 ex => e = Raises ex ∧ is_Exception ex = true
    | W105 | W107 None => ∃ ex, e = Raises ex ∧ is_Exception ex = true
    | W107 (Some ex) => e = Raises ex ∧ is_Exception ex = false
    end.

(** The worker's puts so far, while [finished_event] is not set. *)
Definition worker_inv (t : thread_state) (k : nat) (tr : list event) : Prop :=
    match t with
    | Unstarted => k = O ∧ puts tr = []
    | Running W97 => all_exhausted k ∧ puts tr = worker_stream 0 k
    | Running pc =>
        ∃ k', k = S k' ∧ all_exhausted k' ∧
              wend_ok pc (ending_of (_iterate L k')) ∧
              puts tr ++ wrest pc = worker_stream 0 (S k')
    | Exited =>
        ∃ k', k = S k' ∧ all_exhausted k' ∧
              ending_of (_iterate L k') ≠ StopIteration ∧
              puts tr = worker_stream 0 (S k')
    end.

End Streams.

(** What holds of the attributes in every reachable state. *)
Record attrs_inv (size : Z) (a : async_attrs) (pc : cpc) (tr : list event)
  : Prop := AttrsInv {
  ai_pos : 0 < size;
  ai_max : Queue.maxsize (queue a) = size;
  ai_len : Queue.qsize (queue a) ≤ size;
  ai_fifo : puts tr = gets tr ++ Queue.elems (queue a);
  ai_started : started a = false ↔ thread a = Unstarted;
  ai_starts : starts tr = if started a then 1%nat else 0%nat;
  ai_fin : finished_event a = true → started a = true;
  ai_pc : match pc with
          | I122 | I127 => started a = true
          | C84 | C88 => finished_event a = true
          | I129 _ | I130 _ => False
          | _ => True
          end;
  ai_joined : finished_event a = true → pc ≠ C84 → pc ≠ C88 → thread a = Exited
}.

Definition inv (size : Z) (s : state) (tr : list event) : Prop :=
  async_loader_queue_size s = size ∧
  match attrs s with
  | Some a => attrs_inv size a (consumer s) tr
  | None =>
      size ≤ 0 ∧ starts tr = O ∧ puts tr = [] ∧ gets tr = [] ∧
      match consumer s with
      | I122 | I127 | C84 | C88 => False
      | _ => True
      end
  end.

(** Schedules in which the caller neither closes the loader nor drops an
    iterator: every pass of [__iter__] is driven to its end. *)
Definition plain (act : action) : Prop := act ≠ CallClose ∧ act ≠ Abandon.

Definition closing (pc : cpc) : bool :=
  match pc with C79 | C84 | C88 => true | _ => false end.

(** Asynchronous mode, with no [close_async_loader] so far. *)
Definition open_inv (L : DataLoader) (size : Z) (s : state) (tr : list event)
  : Prop :=
  inv size s tr ∧ closing (consumer s) = false ∧
  ∃ a, attrs s = Some a ∧ finished_event a = false ∧
       worker_inv L (thread a) (iterate_calls s) tr ∧
       view tr = classify L <$> gets tr.

(** Steps left to the worker before its next put, and to the caller before
    its next get. *)
Definition wrank (t : thread_state) : nat :=
  match t with
  | Unstarted | Running W97 => 3
  | Running (W98 _) => 2
  | Running (W99 _ _) => 1
  | _ => 0
  end.

Definition crank (pc : cpc) : nat :=
  match pc with
  | Caller => 2
  | I116 | I127 => 1
  | _ => 0
  end.

(** A bound on the steps an execution can still take before the caller has
    popped [N] objects from a queue of capacity [cap]. *)
Definition fuel (N cap : nat) (s : state) (tr : list event) : nat :=
  (4 * (N + cap - length (puts tr))
   + match attrs s with Some a => wrank (thread a) | None => 0 end
   + 3 * (N - length (gets tr)) + crank (consumer s))%nat.

Definition step_bound (N : nat) (size : Z) : nat := (7 * N + 4 * Z.to_nat size + 5)%nat.

(** The yields collected by the pass in progress at the end of [tr]. *)
Fixpoint pending (cur : list pyobj) (tr : list event) : list pyobj :=
  match tr with
  | [] => cur
  | EYield v :: tr => pending (cur ++ [v]) tr
  | EStop :: tr | ERaise _ :: tr | EAbandon :: tr => pending [] tr
  | _ :: tr => pending cur tr
  end.

(** What holds in synchronous mode while no iterator is dropped. *)
Definition sync_inv (L : DataLoader) (s : state) (tr : list event) : Prop :=
  attrs s = None ∧ async_loader_queue_size s ≤ 0 ∧
  match consumer s with
  | Caller | I116 =>
      passes tr = direct L <$> seq 0 (iterate_calls s) ∧ pending [] tr = []
  | I129 g | I130 g =>
      ∃ k' done, iterate_calls s = S k' ∧
                 items (_iterate L k') = done ++ items g ∧
                 ending_of g = ending_of (_iterate L k') ∧
                 passes tr = direct L <$> seq 0 k' ∧
                 pending [] tr = _process_batch L <$> done
  | _ => False
  end.

(** Errors put by the handler (line 104) and markers put by [finally]
    (line 107). *)
Definition errors : list event → nat := puts_at [L104].
Definition finally_markers : list event → nat := puts_at [L107].

(** The exceptions the source has raised in the worker, and the worker's
    puts with the line of each. *)
Definition raised (tr : list event) : list exn :=
  omap (λ e, match e with EFault x => Some x | _ => None end) tr.

Definition site_puts (tr : list event) : list (put_site * pyobj) :=
  omap (λ e, match e with EPut site v => Some (site, v) | _ => None end) tr.

(** Where the worker is against what it has put so far: [k] calls of
    [_iterate] made, [fin] the value of [finished_event].  The call of
    [_iterate] in progress has the number [pass_markers tr]. *)
Definition marker_inv (L : DataLoader) (t : thread_state) (fin : bool) (k : nat)
    (tr : list event) : Prop :=
  let pm := pass_markers tr in
  let em := exit_markers tr in
  let fm := finally_markers tr in
  let er := errors tr in
  let rs := raised tr in
  let src := ending_of (_iterate L pm) in
  match t with
  | Unstarted => pm = O ∧ em = O ∧ fm = O ∧ er = O ∧ rs = [] ∧ k = O
  | Running W97 => em = O ∧ fm = O ∧ er = O ∧ rs = [] ∧ pm = k
  | Running (W98 g) | Running (W99 _ g) | Running (W101 _ g) =>
      em = O ∧ fm = O ∧ er = O ∧ rs = [] ∧ S pm = k ∧ ending_of g = src
  | Running W102 => em = O ∧ fm = O ∧ er = O ∧ rs = [] ∧ S pm = k
  | Running (W104 e) =>
      em = O ∧ fm = O ∧ er = O ∧ rs = [e] ∧ is_Exception e = true ∧ S pm = k ∧
      src = Raises e
  | Running W105 =>
      em = O ∧ fm = O ∧ er = 1%nat ∧ S pm = k ∧
      ∃ e pre, rs = [e] ∧ is_Exception e = true ∧ src = Raises e ∧
               site_puts tr = pre ++ [(L104, PyExn e)]
  | Running (W107 None) =>
      fm = O ∧
      ((rs = [] ∧ em = O ∧ er = O ∧ pm = k ∧ fin = true) ∨
       (em = 1%nat ∧ er = 1%nat ∧ S pm = k ∧
        ∃ e pre, rs = [e] ∧ is_Exception e = true ∧ src = Raises e ∧
                 site_puts tr = pre ++ [(L104, PyExn e); (L105, PyNone)]))
  | Running (W107 (Some e)) =>
      em = O ∧ fm = O ∧ er = O ∧ rs = [e] ∧ is_Exception e = false ∧ S pm = k ∧
      src = Raises e
  | Exited =>
      fm = 1%nat ∧ (pm + length rs)%nat = k ∧
      ∃ pre,
        match rs with
        | [] =>
            fin = true ∧ em = 1%nat ∧ er = O ∧
            site_puts tr = pre ++ [(L107, PyNone)]
        | [e] =>
            src = Raises e ∧
            if is_Exception e
            then em = 2%nat ∧ er = 1%nat ∧
                 site_puts tr
                 = pre ++ [(L104, PyExn e); (L105, PyNone); (L107, PyNone)]
            else em = 1%nat ∧ er = O ∧ site_puts tr = pre ++ [(L107, PyNone)]
        | _ => False
        end
  end.

Definition markers_inv (L : DataLoader) (s : state) (tr : list event) : Prop :=
  match attrs s with
  | Some a => marker_inv L (thread a) (finished_event a) (iterate_calls s) tr
  | None => True
  end.

(** What the caller of [__iter__] sees of a worker whose passes before [j]
    are clean and whose pass [j] yields data and then raises the
    [Exception] [e]. *)
Definition fault_passes (L : DataLoader) (j : nat) (e : exn)
  : list (list pyobj * outcome) :=
  (direct L <$> seq 0 j) ++
  [(_process_batch L <$> items (_iterate L j), Raised (leaving_generator e));
   ([], Stopped); ([], Stopped)].

(** ** Loaders and schedules of the examples *)

Definition A := PyObj "A"%string.
Definition B := PyObj "B"%string.
Definition C := PyObj "C"%string.
Definition disk_error := Exception "disk error"%string.

(** A loader whose every pass is [g] and whose hook is the base class's. *)
Definition loader (g : generator) : DataLoader :=
  {| _iterate := λ _, g; _process_batch := BaseDataLoader._process_batch |}.

Definition L_abc := loader (Generator [A; B; C] StopIteration).
Definition L_none := loader (Generator [A; PyNone; B] StopIteration).
Definition L_fault := loader (Generator [A] (Raises disk_error)).
Definition L_exn :=
  loader (Generator [A; PyExn (Exception "oops"%string); B] StopIteration).

Definition workers (n : nat) : list action := repeat Worker n.
Definition consumers (n : nat) : list action := repeat Consumer n.

(** The caller begins an iteration and the worker runs ahead for [w] steps
    before the caller takes [c] steps. *)
Definition ahead (w c : nat) : list action :=
  [CallIter; Consumer] ++ workers w ++ consumers c.

(** The caller reads the fault of [L_fault] and then calls [__iter__] three
    more times. *)
Definition after_fault : list action :=
  ahead 8 3 ++ [CallIter; Consumer; Consumer] ++ [CallIter; Consumer; Consumer]
    ++ [CallIter; Consumer].

(** A loader that overrides nothing, and one whose pass is interrupted. *)
Definition L_base : DataLoader :=
  {| _iterate := λ _, BaseDataLoader._iterate;
     _process_batch := BaseDataLoader._process_batch |}.

Definition L_interrupt :=
  loader (Generator [A; B] (Raises (BaseException "KeyboardInterrupt"%string))).

(** A loader whose [_iterate] raises [StopIteration], and one that yields
    a [StopIteration] instance as a batch. *)
Definition L_stop :=
  loader (Generator [] (Raises (StopIterationExc "stop"%string))).
Definition L_stop_batch :=
  loader (Generator [A; PyExn (StopIterationExc "stop"%string); B] StopIteration).






(** A race between [close_async_loader] and the worker on a queue of
    capacity 1: the worker is about to put the second batch when the caller
    pops the first, drops the iterator and closes; the drain finds the
    queue empty before the worker's put lands. *)
Definition close_race : list action :=
  [CallIter; Consumer] ++ workers 6
    ++ [Consumer; Abandon; CallClose; Consumer; Consumer; Worker].

(** With the event set and the queue full: the steps the worker can take
    before it blocks in a put. *)
Definition jam_rank (pc : wpc) : nat :=
  match pc with
  | W98 _ => 2
  | W97 | W99 _ _ => 1
  | _ => 0
  end.

(** The caller waits in [join] while the worker faces a full queue that
    nobody will empty. *)
Definition jammed (b : pyobj) (pc : wpc) (s : state) : Prop :=
  s = State 1 (Some (AsyncAttrs true (Queue.Make 1 [b]) (Running pc) true))
        (iterate_calls s) C88.

(** * Properties *)

(** ** Traces *)

Lemma puts_app tr1 tr2 : puts (tr1 ++ tr2) = puts tr1 ++ puts tr2.
Proof. apply omap_app. Qed.

Lemma gets_app tr1 tr2 : gets (tr1 ++ tr2) = gets tr1 ++ gets tr2.
Proof. apply omap_app. Qed.

Lemma view_app tr1 tr2 : view (tr1 ++ tr2) = view tr1 ++ view tr2.
Proof. apply filter_app. Qed.

Lemma starts_app tr1 tr2 : starts (tr1 ++ tr2) = (starts tr1 + starts tr2)%nat.
Proof. unfold starts. by rewrite filter_app, length_app. Qed.


Lemma puts_at_app sites tr1 tr2 :
  puts_at sites (tr1 ++ tr2) = (puts_at sites tr1 + puts_at sites tr2)%nat.
Proof. unfold puts_at. by rewrite filter_app, length_app. Qed.

Lemma puts_cons e tr :
  puts (e :: tr) = match e with EPut _ v => [v] | _ => [] end ++ puts tr.
Proof. by destruct e. Qed.

Lemma gets_cons e tr :
  gets (e :: tr) = match e with EGet v | EDrain v => [v] | _ => [] end ++ gets tr.
Proof. by destruct e. Qed.

Lemma view_cons e tr :
  view (e :: tr) = (if is_view e then [e] else []) ++ view tr.
Proof. unfold view. rewrite filter_cons. by destruct e. Qed.

Lemma passes_from_app cur tr1 tr2 :
  passes_from cur (tr1 ++ tr2)
  = passes_from cur tr1 ++ passes_from (pending cur tr1) tr2.
Proof.
  revert cur. induction tr1 as [|e tr1 IH]; intros cur; [done|].
  destruct e; simpl; rewrite ?IH; done.
Qed.

Lemma passes_from_view cur tr : passes_from cur (view tr) = passes_from cur tr.
Proof.
  revert cur. induction tr as [|e tr IH]; intros cur; [done|].
  unfold view in *. destruct e; simpl; rewrite ?filter_cons; simpl; rewrite ?IH; try done.

Qed.

Ltac step_cases H :=
  unfold step, __iter__, close_async_loader, _async_worker, Queue.get_nowait,
    Queue.get, Queue.put, dispatch, next, set_consumer, set_queue, set_thread in H;
  simpl in H;
  repeat (first [ progress simplify_option_eq | case_match ]).

Ltac trace_simpl :=
  rewrite ?app_nil_r, ?puts_app, ?gets_app, ?starts_app, ?view_app,
    ?puts_at_app;
  change (starts []) with O; change (starts [EStart]) with 1%nat;
  rewrite ?puts_cons, ?gets_cons, ?view_cons;
  change (puts []) with (@nil pyobj); change (gets []) with (@nil pyobj);
  change (view []) with (@nil event);
  cbn [app length is_view];
  rewrite ?app_nil_r, ?Nat.add_0_r.

Lemma full_false q :
  Queue.full q = false → 0 < Queue.maxsize q →
  Queue.qsize q < Queue.maxsize q.
Proof.
  unfold Queue.full. intros H ?.
  apply andb_false_iff in H as [H|H]; [apply Z.ltb_ge in H|apply Z.leb_gt in H]; lia.
Qed.

Ltac queue_len :=
  repeat match goal with
    | Hf : Queue.full _ = false |- _ => apply full_false in Hf; [|lia]
    end;
  unfold Queue.qsize in *; simpl in *;
  repeat match goal with He : Queue.elems _ = _ |- _ => rewrite He in * end;
  rewrite ?length_app in *; simpl in *; lia.

Section Inv.
Context (L : DataLoader).

Lemma step_inv size act s s' tr evs :
  inv size s tr → step L act s = Some (s', evs) → inv size s' (tr ++ evs).
Proof.
  intros [Hsz Hinv] Hstep. destruct s as [sz at_ k pc]. simpl in *.
  destruct act; step_cases Hstep.
  all: unfold inv; simpl; split; [done|].
  all: try (destruct Hinv as (?&?&?&?&?); repeat split; trace_simpl; done).
  all: destruct Hinv as [I1 I2 I3 I4 I5 I6 I7 I8 I9]; constructor; simpl in *;
    trace_simpl; try done; try tauto; try congruence; try lia.
  all: try (split; [intros Hs; apply I5 in Hs; congruence | congruence]).
  all: try (intros Hf ? ?; first [ by apply I9 | specialize (I7 Hf); congruence
                                 | specialize (I9 Hf); intuition congruence ]).
  all: try (rewrite I4, <- ?(assoc_L (++)); done).
  all: try (rewrite I6; destruct (started _); simplify_eq; done).
  all: try queue_len.
  all: rewrite I4;
    match goal with He : Queue.elems _ = _ |- _ => rewrite He end;
    by rewrite <- (assoc_L (++)).
Qed.

Lemma new_inv size : inv size (new size) [].
Proof.
  unfold inv, new; simpl. split; [done|].
  destruct (0 <? size) eqn:E.
  - apply Z.ltb_lt in E. constructor; simpl; try done. unfold Queue.qsize; simpl; lia.
  - apply Z.ltb_ge in E. done.
Qed.

(** An invariant of the steps is an invariant of the executions. *)
Lemma run_ind (P : state → list event → Prop) (ok : action → Prop) :
  (∀ act s s' tr evs,
      ok act → P s tr → step L act s = Some (s', evs) → P s' (tr ++ evs)) →
  ∀ sched s tr s' tr',
    Forall ok sched → P s tr → run L sched s = Some (s', tr') → P s' (tr ++ tr').
Proof.
  intros Hstep. induction sched as [|act sched IH]; intros s tr s' tr' Hok HP Hrun.
  - simpl in Hrun. simplify_eq. by rewrite app_nil_r.
  - simpl in Hrun. apply Forall_cons in Hok as [Hact Hok].
    destruct (step L act s) as [[s1 evs1]|] eqn:E1; simplify_option_eq.
    destruct (run L sched s1) as [[s2 evs2]|] eqn:E2; simplify_option_eq.
    rewrite (assoc_L (++)). eapply IH; eauto.
Qed.

Lemma run_inv size sched s tr s' tr' :
  inv size s tr → run L sched s = Some (s', tr') → inv size s' (tr ++ tr').
Proof.
  intros Hinv Hrun.
  eapply (run_ind (inv size) (λ _, True)); [|by apply Forall_true|done..].
  eauto using step_inv.
Qed.

Lemma reach_inv size sched s tr :
  run L sched (new size) = Some (s, tr) → inv size s tr.
Proof. intros Hrun. apply (run_inv size sched _ [] _ _ (new_inv size) Hrun). Qed.

Lemma run_app sched1 sched2 s :
  run L (sched1 ++ sched2) s
  = '(s1, tr1) ← run L sched1 s; '(s2, tr2) ← run L sched2 s1; Some (s2, tr1 ++ tr2).
Proof.
  revert s. induction sched1 as [|act sched1 IH]; intros s; simpl.
  - by destruct (run L sched2 s) as [[??]|].
  - destruct (step L act s) as [[s1 evs1]|]; simpl; [|done].
    rewrite IH. destruct (run L sched1 s1) as [[s2 evs2]|]; simpl; [|done].
    destruct (run L sched2 s2) as [[s3 evs3]|]; simpl; [|done].
    by rewrite (assoc_L (++)).
Qed.
End Inv.

Section Stream.
Context (L : DataLoader).

Lemma worker_stream_S k n :
  worker_stream L k (S n)
  = pass_stream (_iterate L k) ++
    match ending_of (_iterate L k) with
    | StopIteration => worker_stream L (S k) n
    | Raises _ => []
    end.
Proof. done. Qed.

Lemma worker_stream_split k m n :
  (∀ i, (k ≤ i < k + m)%nat → ending_of (_iterate L i) = StopIteration) →
  worker_stream L k (m + n) = worker_stream L k m ++ worker_stream L (k + m) n.
Proof.
  revert k. induction m as [|m IH]; intros k Hex; simpl.
  - by rewrite Nat.add_0_r.
  - rewrite (Hex k) by lia. rewrite IH by (intros; apply Hex; lia).
    rewrite <- (assoc_L (++)). by replace (S k + m)%nat with (k + S m)%nat by lia.
Qed.

Lemma worker_stream_snoc k :
  all_exhausted L k →
  worker_stream L 0 (S k) = worker_stream L 0 k ++ pass_stream (_iterate L k).
Proof.
  intros Hex. replace (S k) with (k + 1)%nat by lia.
  rewrite worker_stream_split by (intros; apply Hex; lia). simpl.
  by destruct (ending_of (_iterate L k)); rewrite app_nil_r.
Qed.

Lemma worker_stream_prefix k n m :
  worker_stream L k n `prefix_of` worker_stream L k (n + m).
Proof.
  revert k. induction n as [|n IH]; intros k; simpl; [apply prefix_nil|].
  apply prefix_app. destruct (ending_of (_iterate L k)); [apply IH|done].
Qed.

Lemma worker_stream_le k n n' :
  (n ≤ n')%nat → worker_stream L k n `prefix_of` worker_stream L k n'.
Proof.
  intros. replace n' with (n + (n' - n))%nat by lia. apply worker_stream_prefix.
Qed.

(** A pass that raises is the worker's last. *)
Lemma worker_stream_stop k n :
  all_exhausted L k → ending_of (_iterate L k) ≠ StopIteration → (k < n)%nat →
  worker_stream L 0 n = worker_stream L 0 (S k).
Proof.
  intros Hex Hend Hlt. replace n with (k + S (n - S k))%nat by lia.
  replace (S k) with (k + 1)%nat by lia.
  rewrite !worker_stream_split by (intros; apply Hex; lia). simpl.
  by destruct (ending_of (_iterate L k)).
Qed.

Lemma all_exhausted_S k :
  all_exhausted L k → ending_of (_iterate L k) = StopIteration →
  all_exhausted L (S k).
Proof.
  intros Hex Hk i Hi. destruct (decide (i = k)) as [->|]; [done|].
  apply Hex. lia.
Qed.

Lemma pass_stream_cons batch l e :
  pass_stream (Generator (batch :: l) e) = batch :: pass_stream (Generator l e).
Proof. done. Qed.

End Stream.

Arguments worker_stream : simpl never.
Arguments closing : simpl never.

Section Open.
Context (L : DataLoader).

Lemma worker_inv_ext t k tr tr' :
  puts tr' = puts tr → worker_inv L t k tr → worker_inv L t k tr'.
Proof.
  intros Heq. unfold worker_inv. rewrite Heq. done.
Qed.

Lemma async_worker_inv pc a n t a' n' evs tr :
  finished_event a = false →
  worker_inv L (Running pc) n tr →
  _async_worker L pc a n = Some (t, a', n', evs) →
  worker_inv L t n' (tr ++ evs) ∧ finished_event a' = false.
Proof.
  intros Hfin Hw Hstep.
  destruct pc; simpl in Hw;
    [destruct Hw as [Hex Heq]|destruct Hw as (k' & -> & Hex & Hend & Heq)..];
    step_cases Hstep; simpl in *; (split; [|done]); trace_simpl.
  { exists n. split_and!; try done. by rewrite worker_stream_snoc, Heq. }
  all: try (split; [by apply all_exhausted_S|done]).
  all: exists k'; split_and!; try done; eauto.
  all: try congruence.
  all: try match type of Hend with
           | ∃ _, _ => destruct Hend as (? & Hend & ?); first [congruence|by eauto]
           | _ ∧ _ => destruct Hend as [Hend ?]; first [congruence|by eauto]
           end.
  all: try (rewrite <- Heq, <- ?(assoc_L (++)); unfold pass_stream; simpl;
    repeat match goal with He : items _ = _ |- _ => rewrite He end;
    repeat match goal with He : ending_of _ = _ |- _ => rewrite He end;
    repeat match goal with He : is_Exception _ = _ |- _ => rewrite He end; done).
Qed.

Lemma async_worker_events pc a n t a' n' evs :
  _async_worker L pc a n = Some (t, a', n', evs) →
  view evs = [] ∧ gets evs = [] ∧ starts evs = O.
Proof. intros Hstep. destruct pc; step_cases Hstep; done. Qed.

Lemma step_open size act s s' tr evs :
  plain act → open_inv L size s tr → step L act s = Some (s', evs) →
  open_inv L size s' (tr ++ evs).
Proof.
  intros [Hc Ha] (Hinv & Hcl & a & Hat & Hfin & Hw & Hv) Hstep.
  split; [by eapply step_inv|].
  destruct Hinv as [Hsz Hinv]. rewrite Hat in Hinv.
  destruct Hinv as [I1 I2 I3 I4 I5 I6 I7 I8 I9].
  destruct s as [sz at_ k pc]; simpl in *; subst.
  destruct act; try done.
  - unfold step in Hstep; simpl in Hstep.
    destruct (thread a) as [|wpc|] eqn:Ht; try done.
    destruct (_async_worker L wpc a k) as [[[[t a'] n'] evs']|] eqn:E;
      simplify_option_eq.
    destruct (async_worker_events _ _ _ _ _ _ _ E) as (Hv' & Hg' & _).
    eapply async_worker_inv in E as [Hw' Hfin']; [|done..].
    split; [done|]. eexists; split; [done|]. simpl.
    split_and!; try done. by rewrite view_app, gets_app, Hv', Hg', !app_nil_r.
  - destruct pc; try done; step_cases Hstep; simpl in *; try done; try lia.
    all: split; [done|eexists; split; [done|]]; simpl.
    all: split; [done|].
    all: trace_simpl.
    all: try (split; [|rewrite Hv, ?fmap_app; done]).
    all: try (eapply worker_inv_ext; [|done]; trace_simpl; done).
    all: try (split; [eapply worker_inv_ext; [|done]; trace_simpl; done|];
              rewrite Hv, fmap_app; simpl;
              match goal with He : is_Exception _ = _ |- _ => by rewrite He end).
    assert (thread a = Unstarted) as Ht by (by apply I5).
    rewrite Ht in Hw. destruct Hw as [-> ->]. split; [intros i ?; lia|done].
  - step_cases Hstep;
      (split; [done|eexists; split; [done|simpl; by rewrite app_nil_r]]).
Qed.

Lemma new_open size : 0 < size → open_inv L size (new size) [].
Proof.
  intros Hpos. split; [apply new_inv|]. split; [done|].
  unfold new; simpl. apply Z.ltb_lt in Hpos. rewrite Hpos.
  eexists; split; [done|]. done.
Qed.

Lemma reach_open size sched s tr :
  0 < size → Forall plain sched → run L sched (new size) = Some (s, tr) →
  open_inv L size s tr.
Proof.
  intros Hpos Hpl Hrun.
  apply (run_ind L (open_inv L size) plain (λ act s s' tr evs Hp Ho Hs,
           step_open size act s s' tr evs Hp Ho Hs) sched _ [] _ _ Hpl
           (new_open size Hpos) Hrun).
Qed.
End Open.

Section Reading.
Context (L : DataLoader).

Lemma passes_from_data cur xs rest :
  Forall (λ v, is_data v = true) xs →
  passes_from cur (classify L <$> xs ++ rest)
  = passes_from (cur ++ (_process_batch L <$> xs)) (classify L <$> rest).
Proof.
  intros Hxs. revert cur. induction Hxs as [|x xs Hx _ IH]; intros cur; simpl.
  - by rewrite app_nil_r.
  - destruct x as [|[]|]; try done; simpl;
      rewrite IH, <- (assoc_L (++)); done.
Qed.

Lemma pending_data cur xs :
  Forall (λ v, is_data v = true) xs →
  pending cur (classify L <$> xs) = cur ++ (_process_batch L <$> xs).
Proof.
  intros Hxs. revert cur. induction Hxs as [|x xs Hx _ IH]; intros cur; simpl.
  - by rewrite app_nil_r.
  - destruct x as [|[]|]; try done; simpl; rewrite IH, <- (assoc_L (++)); done.
Qed.

(** A clean pass read through the queue is the pass read directly. *)
Lemma passes_clean g rest :
  clean g →
  passes_from [] (classify L <$> pass_stream g ++ rest)
  = (_process_batch L <$> items g, Stopped) :: passes_from [] (classify L <$> rest).
Proof.
  intros [Hend Hdata]. unfold pass_stream. rewrite Hend, <- (assoc_L (++)).
  by rewrite passes_from_data.
Qed.

Lemma direct_clean j :
  clean (_iterate L j) →
  direct L j = (_process_batch L <$> items (_iterate L j), Stopped).
Proof. intros [Hend _]. unfold direct, BaseDataLoader.__iter__. by rewrite Hend. Qed.

Lemma worker_stream_clean j rest :
  (∀ i, (i < j)%nat → clean (_iterate L i)) →
  passes_from [] (classify L <$> worker_stream L 0 j ++ rest)
  = (direct L <$> seq 0 j) ++ passes_from [] (classify L <$> rest).
Proof.
  revert rest. induction j as [|j IH]; intros rest Hcl; [done|].
  assert (all_exhausted L j) as Hex by (intros i Hi; by apply Hcl; lia).
  rewrite worker_stream_snoc, <- (assoc_L (++)) by done.
  rewrite IH by (intros; apply Hcl; lia).
  rewrite passes_clean by (apply Hcl; lia).
  rewrite seq_S, fmap_app, <- (assoc_L (++)). simpl.
  by rewrite direct_clean by (apply Hcl; lia).
Qed.

Lemma passes_prefix tr1 tr2 :
  tr1 `prefix_of` tr2 → passes tr1 `prefix_of` passes tr2.
Proof. intros [k ->]. unfold passes. rewrite passes_from_app. by eexists. Qed.

(** Every pass of the worker ends with a marker, so reading it ends a
    pass of [__iter__]. *)
Lemma passes_pass_stream cur g :
  ∃ p ps, passes_from cur (classify L <$> pass_stream g) = p :: ps.
Proof.
  assert (∃ xs, pass_stream g = xs ++ [PyNone]) as [xs ->].
  { unfold pass_stream. destruct (ending_of g) as [|e]; [by eexists|].
    destruct (is_Exception e); [|by eexists].
    exists (items g ++ [PyExn e; PyNone]). by rewrite <- (assoc_L (++)). }
  rewrite fmap_app, passes_from_app. simpl.
  destruct (passes_from cur (classify L <$> xs)); simpl; eauto.
Qed.

Lemma all_exhausted_clean j :
  (∀ i, (i < j)%nat → clean (_iterate L i)) → all_exhausted L j.
Proof. intros Hcl i Hi. by apply Hcl. Qed.

Section Async.
Context (size : Z) (sched : list action) (s : state) (tr : list event).
Context (Hpos : 0 < size) (Hplain : Forall plain sched).
Context (Hrun : run L sched (new size) = Some (s, tr)).

Lemma async_puts n :
  (iterate_calls s ≤ n)%nat → puts tr `prefix_of` worker_stream L 0 n.
Proof.
  intros Hn. destruct (reach_open L size sched s tr Hpos Hplain Hrun)
    as (_ & _ & a & _ & _ & Hw & _).
  destruct (thread a) as [|pc|]; simpl in Hw.
  - destruct Hw as [_ ->]. apply prefix_nil.
  - destruct pc;
      [destruct Hw as [_ ->]; by apply worker_stream_le
      |destruct Hw as (k' & Hk & _ & _ & Heq)..].
    all: etrans; [|apply (worker_stream_le L 0 (S k') n); lia].
    all: rewrite <- Heq; by apply prefix_app_r.
  - destruct Hw as (k' & Hk & _ & _ & ->). apply worker_stream_le. lia.
Qed.

Lemma async_gets : gets tr `prefix_of` puts tr.
Proof.
  destruct (reach_open L size sched s tr Hpos Hplain Hrun)
    as ([_ Hinv] & _ & a & Hat & _).
  rewrite Hat in Hinv. destruct Hinv. by eexists.
Qed.

Lemma async_view n :
  (iterate_calls s ≤ n)%nat →
  view tr `prefix_of` classify L <$> worker_stream L 0 n.
Proof.
  intros Hn. destruct (reach_open L size sched s tr Hpos Hplain Hrun)
    as (_ & _ & a & _ & _ & _ & ->).
  destruct (async_puts n Hn) as [k1 Hk1]. destruct async_gets as [k2 Hk2].
  rewrite Hk1, Hk2, !fmap_app, <- (assoc_L (++)). by eexists.
Qed.

Lemma async_passes n :
  (iterate_calls s ≤ n)%nat →
  passes tr `prefix_of` passes (classify L <$> worker_stream L 0 n).
Proof.
  intros Hn. unfold passes at 1. rewrite <- passes_from_view.
  by apply passes_prefix, async_view.
Qed.

(** After [j] clean passes, pass [j] of [__iter__] reads pass [j] of the
    worker. *)
Lemma async_pass j p :
  (∀ i, (i < j)%nat → clean (_iterate L i)) →
  passes tr !! j = Some p →
  head (passes (classify L <$> pass_stream (_iterate L j))) = Some p.
Proof.
  intros Hcl Hp.
  pose (n := (j + S (iterate_calls s))%nat).
  assert (passes (classify L <$> worker_stream L 0 n) !! j = Some p) as Hn.
  { eapply prefix_lookup_Some; [done|]. apply async_passes. lia. }
  unfold n in Hn.
  rewrite worker_stream_split in Hn by (intros; by apply Hcl; lia).
  unfold passes in Hn. rewrite worker_stream_clean in Hn by done.
  rewrite lookup_app_r in Hn by (rewrite length_fmap, length_seq; lia).
  rewrite length_fmap, length_seq, Nat.sub_diag in Hn. simpl in Hn.
  rewrite worker_stream_S, fmap_app, passes_from_app in Hn.
  destruct (passes_pass_stream [] (_iterate L j)) as (p' & ps & Hps).
  unfold passes. rewrite Hps in *. simpl in *. done.
Qed.
End Async.
End Reading.

Ltac trace_len :=
  rewrite ?app_nil_r, ?puts_app, ?gets_app in *;
  rewrite ?puts_cons, ?gets_cons in *;
  change (puts []) with (@nil pyobj) in *; change (gets []) with (@nil pyobj) in *;
  cbn [app] in *;
  rewrite ?app_nil_r, ?length_app in *; cbn [length] in *.

Section Progress.
Context (L : DataLoader).

Lemma open_inv_lengths size s tr :
  open_inv L size s tr →
  (length (puts tr) ≤ length (gets tr) + Z.to_nat size)%nat.
Proof.
  intros ([_ Hinv] & _ & a & Hat & _). rewrite Hat in Hinv.
  destruct Hinv as [I1 I2 I3 I4 _ _ _ _ _]. rewrite I4, length_app.
  unfold Queue.qsize in I3. lia.
Qed.

(** Every step uses up fuel while the caller has popped at most [N]
    objects. *)
Lemma step_fuel size N act s s' tr evs :
  open_inv L size s tr → plain act → step L act s = Some (s', evs) →
  (length (gets (tr ++ evs)) ≤ N)%nat →
  (fuel N (Z.to_nat size) s' (tr ++ evs) < fuel N (Z.to_nat size) s tr)%nat.
Proof.
  intros Hopen Hpl Hstep HN.
  pose proof (open_inv_lengths _ _ _ (step_open L size _ _ _ _ _ Hpl Hopen Hstep)) as Hlen.
  destruct Hopen as ([_ Hinv] & Hcl & a & Hat & _). destruct Hpl as [Hc Ha].
  rewrite Hat in Hinv. destruct Hinv as [_ _ _ _ I5 _ _ I8 _].
  destruct s as [sz at_ k pc]; simpl in *; subst.
  unfold fuel.
  destruct act; try done; step_cases Hstep; simpl in *; try done; trace_len;
    try lia.
  all: assert (thread a = Unstarted) as -> by (by apply I5); simpl; lia.
Qed.

Lemma gets_length_app tr evs : (length (gets tr) ≤ length (gets (tr ++ evs)))%nat.
Proof. rewrite gets_app, length_app. lia. Qed.

Lemma run_fuel size N sched s tr s' tr' :
  open_inv L size s tr → Forall plain sched →
  run L sched s = Some (s', tr') →
  (length (gets (tr ++ tr')) ≤ N)%nat →
  (length sched + fuel N (Z.to_nat size) s' (tr ++ tr')
   ≤ fuel N (Z.to_nat size) s tr)%nat.
Proof.
  revert s tr s' tr'. induction sched as [|act sched IH];
    intros s tr s' tr' Hopen Hpl Hrun HN; simpl in Hrun.
  - simplify_eq. rewrite app_nil_r. simpl. lia.
  - apply Forall_cons in Hpl as [Hact Hpl].
    destruct (step L act s) as [[s1 evs1]|] eqn:E1; simplify_option_eq.
    destruct (run L sched s1) as [[s2 evs2]|] eqn:E2; simplify_option_eq.
    rewrite (assoc_L (++)) in *.
    assert (length (gets (tr ++ evs1)) ≤ N)%nat as HN1.
    { etrans; [apply (gets_length_app _ evs2)|done]. }
    pose proof (step_fuel size N _ _ _ _ _ Hopen Hact E1 HN1).
    pose proof (IH _ _ _ _ (step_open L size _ _ _ _ _ Hact Hopen E1) Hpl E2 HN).
    simpl. lia.
Qed.

(** An execution in which the caller has popped at most [N] objects has
    at most [step_bound N size] steps. *)
Lemma run_bound size N sched s tr :
  0 < size → Forall plain sched → run L sched (new size) = Some (s, tr) →
  (length (gets tr) ≤ N)%nat → (length sched ≤ step_bound N size)%nat.
Proof.
  intros Hpos Hpl Hrun HN.
  pose proof (run_fuel size N sched _ [] _ _ (new_open L size Hpos) Hpl Hrun HN) as H.
  unfold fuel at 2 in H. unfold new in H. simpl in H.
  apply Z.ltb_lt in Hpos. rewrite Hpos in H. simpl in H.
  unfold step_bound. lia.
Qed.

(** Unless the worker has exited and the queue is empty, somebody can
    move. *)
Lemma open_progress size s tr a :
  open_inv L size s tr → attrs s = Some a →
  (thread a = Exited → Queue.elems (queue a) ≠ []) →
  ∃ act, plain act ∧ is_Some (step L act s).
Proof.
  intros ([Hsz Hinv] & Hcl & a' & Hat & Hfin & _) Hat' Hex.
  rewrite Hat in Hat'. simplify_eq. rewrite Hat in Hinv.
  destruct Hinv as [I1 I2 I3 I4 I5 I6 I7 I8 I9].
  destruct s as [sz at_ k pc]; simpl in *; subst.
  assert ((0 <? Queue.maxsize (queue a)) = true) as Hpos by (by apply Z.ltb_lt).
  destruct pc; try done.
  - exists CallIter. split; [done|]. by eexists.
  - exists Consumer. split; [done|]. simpl. rewrite Hpos. simpl.
    destruct (started a); by eexists.
  - destruct (Queue.elems (queue a)) as [|v l] eqn:Hq.
    + exists Worker. split; [done|]. simpl.
      assert (Queue.full (queue a) = false) as Hfull.
      { unfold Queue.full, Queue.qsize. rewrite Hq. simpl.
        apply andb_false_iff. right. apply Z.leb_gt. lia. }
      destruct (thread a) as [|wpc|] eqn:Ht.
      * assert (started a = false) by (by apply I5). congruence.
      * destruct wpc; simpl; unfold Queue.put; rewrite ?Hfull, ?Hfin; simpl;
          try (by eexists).
        -- unfold next. destruct (items g); [destruct (ending_of g) as [|[]]|];
             by eexists.
      * by destruct Hex.
    + exists Consumer. split; [done|]. simpl. unfold Queue.get. rewrite Hq. simpl.
      unfold dispatch. destruct v as [|[]|]; by eexists.
  - exists Consumer. split; [done|]. by eexists.
Qed.
End Progress.

Section Live.
Context (L : DataLoader).
Context (size : Z) (sched : list action) (s : state) (tr : list event).
Context (Hpos : 0 < size) (Hplain : Forall plain sched).
Context (Hrun : run L sched (new size) = Some (s, tr)).

(** Once the caller has popped as many objects as [pre] has, it has
    popped [pre]. *)
Lemma gets_cover pre n :
  (iterate_calls s ≤ n)%nat → pre `prefix_of` worker_stream L 0 n →
  (length pre ≤ length (gets tr))%nat → pre `prefix_of` gets tr.
Proof.
  intros Hn Hpre Hlen.
  assert (gets tr `prefix_of` worker_stream L 0 n) as Hg.
  { etrans; [by eapply async_gets|by eapply async_puts]. }
  destruct (prefix_weak_total _ _ _ Hpre Hg) as [|Hgp]; [done|].
  by rewrite (prefix_length_eq _ _ Hgp Hlen).
Qed.

Lemma passes_cover pre n :
  (iterate_calls s ≤ n)%nat → pre `prefix_of` worker_stream L 0 n →
  (length pre ≤ length (gets tr))%nat →
  (length (passes (classify L <$> pre)) ≤ length (passes tr))%nat.
Proof.
  intros Hn Hpre Hlen. apply prefix_length.
  destruct (gets_cover pre n Hn Hpre Hlen) as [k Hk].
  destruct (reach_open L size sched s tr Hpos Hplain Hrun)
    as (_ & _ & a & _ & _ & _ & Hv).
  unfold passes at 2. rewrite <- passes_from_view, Hv, Hk, fmap_app.
  by apply passes_prefix, prefix_app_r.
Qed.

(** While [__iter__] has not finished the passes that the objects of the
    worker's passes [0..j] end, the execution is short and not stuck. *)
Lemma async_live j :
  (length (passes tr) < length (passes (classify L <$> worker_stream L 0 (S j))))%nat →
  (length sched ≤ step_bound (upto L j) size)%nat ∧
  ∃ act, plain act ∧ is_Some (step L act s).
Proof.
  intros Hlt.
  assert (length (gets tr) < upto L j)%nat as Hg.
  { destruct (decide (length (gets tr) < upto L j)%nat) as [|Hge]; [done|].
    unfold upto in Hge.
    assert (length (passes (classify L <$> worker_stream L 0 (S j)))
            ≤ length (passes tr))%nat; [|lia].
    apply (passes_cover _ (S j + iterate_calls s)); [lia| |lia].
    apply worker_stream_le. lia. }
  split.
  - eapply run_bound; [done..|lia].
  - pose proof (reach_open L size sched s tr Hpos Hplain Hrun) as Hopen.
    pose proof Hopen as (Hinv & Hcl & a & Hat & Hfin & Hw & Hv).
    eapply (open_progress L size s tr a); [done..|].
    intros Hex Hq. destruct Hinv as [_ Hinv]. rewrite Hat in Hinv.
    destruct Hinv as [_ _ _ I4 _ _ _ _ _]. rewrite Hq, app_nil_r in I4.
    rewrite Hex in Hw. destruct Hw as (k' & Hk & Hall & Hend & Heq).
    assert (length (worker_stream L 0 (S j)) ≤ length (puts tr))%nat as Hle;
      [|unfold upto in Hg; rewrite I4 in Hle; lia].
    rewrite Heq. destruct (decide (j ≤ k')%nat).
    + apply prefix_length, worker_stream_le. lia.
    + rewrite (worker_stream_stop L k' (S j)); [done..|lia].
Qed.
End Live.

Lemma pending_app cur tr1 tr2 :
  pending cur (tr1 ++ tr2) = pending (pending cur tr1) tr2.
Proof.
  revert cur. induction tr1 as [|e tr1 IH]; intros cur; [done|].
  destruct e; simpl; rewrite ?IH; done.
Qed.

Section Sync.
Context (L : DataLoader).

Lemma step_sync act s s' tr evs :
  plain act → sync_inv L s tr → step L act s = Some (s', evs) →
  sync_inv L s' (tr ++ evs).
Proof.
  intros [Hc Ha] (Hat & Hsz & Hpc) Hstep.
  destruct s as [sz at_ k pc]; simpl in *; subst.
  assert ((0 <? sz) = false) as Hneg by (by apply Z.ltb_ge).
  destruct act; try done; step_cases Hstep; simpl in *; try done.
  all: (split; [done|split; [done|]]); simpl.
  all: unfold passes in *; rewrite ?passes_from_app, ?pending_app, ?app_nil_r;
    simpl.
  - exists k, []. by destruct Hpc.
  - destruct Hpc as (k' & done & -> & Hit & Hend & Hp & Hq).
    exists k', (done ++ [batch]). rewrite fmap_app, Hq, Hit, <- (assoc_L (++)).
    by repeat match goal with He : items _ = _ |- _ => rewrite He end.
  - destruct Hpc as (k' & done & -> & Hit & Hend & Hp & Hq). split; [|done].
    rewrite seq_S, fmap_app, Hp, Hq. simpl. unfold direct, BaseDataLoader.__iter__.
    rewrite Hit, <- Hend.
    repeat match goal with He : _ = _ |- _ => rewrite He end.
    by rewrite app_nil_r.
  - destruct Hpc as (k' & done & -> & Hit & Hend & Hp & Hq). split; [|done].
    rewrite seq_S, fmap_app, Hp, Hq. simpl. unfold direct, BaseDataLoader.__iter__.
    rewrite Hit, <- Hend.
    repeat match goal with He : _ = _ |- _ => rewrite He end.
    by rewrite app_nil_r.
  - done.
  - done.
Qed.

Lemma new_sync size : size ≤ 0 → sync_inv L (new size) [].
Proof.
  intros Hneg. unfold sync_inv, new; simpl.
  assert ((0 <? size) = false) as -> by (by apply Z.ltb_ge). done.
Qed.

Lemma reach_sync size sched s tr :
  size ≤ 0 → Forall plain sched → run L sched (new size) = Some (s, tr) →
  sync_inv L s tr.
Proof.
  intros Hneg Hpl Hrun.
  apply (run_ind L (sync_inv L) plain step_sync sched _ [] _ _ Hpl
           (new_sync size Hneg) Hrun).
Qed.

(** In synchronous mode every finished pass of [__iter__] is the pass
    read directly from the source. *)
Lemma sync_pass size sched s tr j p :
  size ≤ 0 → Forall plain sched → run L sched (new size) = Some (s, tr) →
  passes tr !! j = Some p → p = direct L j.
Proof.
  intros Hneg Hpl Hrun Hp.
  destruct (reach_sync size sched s tr Hneg Hpl Hrun) as (_ & _ & Hpc).
  assert (∃ n, passes tr = direct L <$> seq 0 n) as [n Hn].
  { destruct (consumer s); try done; try (destruct Hpc as [? _]; by eexists).
    all: destruct Hpc as (k' & done & _ & _ & _ & ? & _); by eexists. }
  rewrite Hn, list_lookup_fmap in Hp.
  destruct (seq 0 n !! j) as [i|] eqn:Hi; simplify_eq/=.
  apply lookup_seq in Hi as [-> _]. done.
Qed.

(** A pass of the synchronous iterator run from line 129 to its end. *)
Lemma run_I129 sz k g :
  sz ≤ 0 →
  ∃ tr, run L (repeat Consumer (2 * length (items g) + 1))
          (State sz None k (I129 g)) = Some (State sz None k Caller, tr) ∧
        passes_from [] tr
        = [(_process_batch L <$> items g,
            outcome_of (generator_ending (ending_of g)))] ∧
        view tr = tr.
Proof.
  intros Hneg. destruct g as [xs e]. simpl.
  assert (∀ cur, ∃ tr,
    run L (repeat Consumer (2 * length xs + 1))
      (State sz None k (I129 (Generator xs e))) = Some (State sz None k Caller, tr) ∧
    passes_from cur tr
    = [(cur ++ (_process_batch L <$> xs), outcome_of (generator_ending e))] ∧
    view tr = tr) as H; [|apply (H [])].
  induction xs as [|x xs IH]; intros cur.
  - simpl. unfold next; simpl. destruct e; simpl; eexists; split_and!; try done;
      by rewrite app_nil_r.
  - replace (2 * length (x :: xs) + 1)%nat with (S (S (2 * length xs + 1))) by (simpl; lia).
    destruct (IH (cur ++ [_process_batch L x])) as (tr & Hr & Hp & Hv).
    clear IH. remember (2 * length xs + 1)%nat as m.
    simpl. rewrite Hr. simpl.
    eexists; split_and!; [done| |].
    + simpl. rewrite Hp, <- (assoc_L (++)). done.
    + rewrite view_cons. simpl. by rewrite Hv.
Qed.

(** A whole pass: the caller begins an iteration and drives it to its
    end. *)
Lemma run_sync_pass sz k :
  sz ≤ 0 →
  ∃ tr, run L (CallIter :: repeat Consumer (2 * length (items (_iterate L k)) + 2))
          (State sz None k Caller) = Some (State sz None (S k) Caller, tr) ∧
        passes tr = [direct L k].
Proof.
  intros Hneg.
  destruct (run_I129 sz (S k) (_iterate L k) Hneg) as (tr & Hr & Hp & _).
  replace (2 * length (items (_iterate L k)) + 2)%nat
    with (S (2 * length (items (_iterate L k)) + 1)) by lia.
  remember (2 * length (items (_iterate L k)) + 1)%nat as m.
  simpl. assert ((0 <? sz) = false) as -> by (by apply Z.ltb_ge). simpl.
  rewrite Hr. simpl. eexists; split; [done|]. done.
Qed.
End Sync.

Lemma raised_app tr1 tr2 : raised (tr1 ++ tr2) = raised tr1 ++ raised tr2.
Proof. unfold raised. by rewrite omap_app. Qed.

Lemma site_puts_app tr1 tr2 :
  site_puts (tr1 ++ tr2) = site_puts tr1 ++ site_puts tr2.
Proof. unfold site_puts. by rewrite omap_app. Qed.

Ltac count_simpl :=
  unfold pass_markers, exit_markers, finally_markers, errors in *;
  rewrite ?app_nil_r, ?puts_at_app, ?raised_app, ?site_puts_app in *;
  repeat match goal with
    | |- context [puts_at ?l [?e]] =>
        let x := eval vm_compute in (puts_at l [e]) in change (puts_at l [e]) with x
    | |- context [puts_at ?l [?e; ?e']] =>
        let x := eval vm_compute in (puts_at l [e; e']) in
        change (puts_at l [e; e']) with x
    | |- context [raised [?e]] =>
        let x := eval cbv in (raised [e]) in change (raised [e]) with x
    | |- context [raised [?e; ?e']] =>
        let x := eval cbv in (raised [e; e']) in change (raised [e; e']) with x
    | |- context [site_puts [?e]] =>
        let x := eval cbv in (site_puts [e]) in change (site_puts [e]) with x
    | |- context [site_puts [?e; ?e']] =>
        let x := eval cbv in (site_puts [e; e']) in
        change (site_puts [e; e']) with x
    end;
  rewrite ?app_nil_r, ?Nat.add_0_r in *.

Arguments marker_inv : simpl never.

Section Markers.
Context (L : DataLoader).

Lemma async_worker_markers pc a n t a' n' evs tr :
  marker_inv L (Running pc) (finished_event a) n tr →
  _async_worker L pc a n = Some (t, a', n', evs) →
  marker_inv L t (finished_event a') n' (tr ++ evs).
Proof.
  intros Hm Hstep.
  destruct pc as [| | | | | | |[e|]]; step_cases Hstep.
  all: unfold marker_inv in *; count_simpl.
  all: try (destruct_and!; split_and!; (done || lia || congruence)).
  - destruct_and!. split; [done|]. left. by split_and!.
  - destruct Hm as (? & ? & ? & -> & ? & ?). split_and!; (done || congruence).
  - destruct Hm as (? & ? & ? & -> & ? & ?). split_and!; (done || congruence).
  - destruct Hm as (? & ? & ? & Hr & ? & ? & ?). split_and!; try done; try lia.
    exists ex, (site_puts tr). by rewrite Hr.
  - destruct Hm as (? & ? & ? & ? & e & pre & ? & ? & ? & Hs).
    split; [done|]. right. split_and!; try done; try lia.
    exists e, pre. split_and!; try done. by rewrite Hs, <- (assoc_L (++)).
  - destruct Hm as (? & ? & ? & Hr & He & ? & ?). rewrite Hr; simpl. rewrite He.
    split_and!; try lia. exists (site_puts tr). split_and!; (done || lia).
  - destruct Hm as (? & [(Hr & ? & ? & ? & ?)
                        |(? & ? & ? & e & pre & Hr & He & ? & Hs)]);
      rewrite Hr; simpl.
    + split_and!; try lia. exists (site_puts tr). split_and!; (done || lia).
    + rewrite He. split_and!; try lia. exists pre.
      split_and!; try done; try lia. by rewrite Hs, <- (assoc_L (++)).
Qed.

Lemma step_markers size act s s' tr evs :
  inv size s tr → markers_inv L s tr → step L act s = Some (s', evs) →
  markers_inv L s' (tr ++ evs).
Proof.
  intros [Hsz Hinv] Hm Hstep. unfold markers_inv in *.
  destruct s as [sz at_ k pc]; simpl in *.
  destruct act.
  - unfold step in Hstep; simpl in Hstep.
    destruct at_ as [a|]; [|done]; simpl in Hstep.
    destruct (thread a) as [|wpc|] eqn:Ht; try done.
    destruct (_async_worker L wpc a k) as [[[[t a'] n'] evs']|] eqn:E;
      simplify_option_eq.
    by eapply async_worker_markers.
  - step_cases Hstep; simpl in *; try done.
    all: unfold marker_inv in *; count_simpl; try done.
    all: destruct Hinv as [I1 _ _ _ I5 _ _ I8 _]; simpl in *; try lia.
    all: try match goal with
         | Hs : started ?a = false |- _ =>
             assert (thread a = Unstarted) as Ht by (by apply I5);
             rewrite Ht in Hm; destruct_and!; split_and!; (done || lia)
         end.
    all: try by match goal with Ht : thread _ = Exited |- _ => rewrite Ht end.
    all: match goal with |- context [thread ?a] =>
           destruct (thread a) as [|[| | | | | | |[?|]]|] end; try done.
    + intuition.
    + destruct Hm as (? & ? & pre & Hm). split_and!; try done. exists pre.
      destruct (raised tr) as [|? [|]]; intuition.
  - step_cases Hstep; simpl in *; try done.
    all: unfold marker_inv in *; by count_simpl.
  - step_cases Hstep; simpl in *; try done.
    all: unfold marker_inv in *; by count_simpl.
  - step_cases Hstep; simpl in *; try done.
    all: unfold marker_inv in *; by count_simpl.
Qed.

Lemma reach_markers size sched s tr :
  run L sched (new size) = Some (s, tr) → markers_inv L s tr.
Proof.
  intros Hrun.
  refine (proj2 (run_ind L (λ s tr, inv size s tr ∧ markers_inv L s tr) (λ _, True)
                   _ sched _ [] _ _ _ _ Hrun)).
  - intros act s0 s1 tr0 evs _ [Hi Hm] Hs.
    split; [by eapply step_inv|by eapply step_markers].
  - by apply Forall_true.
  - split; [apply new_inv|]. unfold markers_inv, new; simpl.
    by destruct (0 <? size).
Qed.
End Markers.

Section Facts.
Context (L : DataLoader).

Lemma passes_upto j :
  (∀ i, (i < j)%nat → clean (_iterate L i)) →
  passes (classify L <$> worker_stream L 0 (S j))
  = (direct L <$> seq 0 j) ++ passes (classify L <$> pass_stream (_iterate L j)).
Proof.
  intros Hcl. unfold passes.
  rewrite worker_stream_snoc by by apply all_exhausted_clean.
  by rewrite worker_stream_clean.
Qed.

Lemma passes_upto_length j :
  (∀ i, (i < j)%nat → clean (_iterate L i)) →
  (j < length (passes (classify L <$> worker_stream L 0 (S j))))%nat.
Proof.
  intros Hcl. rewrite passes_upto by done.
  destruct (passes_pass_stream L [] (_iterate L j)) as (p & ps & Hp).
  unfold passes. rewrite Hp, length_app, length_fmap, length_seq. simpl. lia.
Qed.

Lemma passes_none cur pre post :
  Forall (λ v, is_data v = true) pre →
  passes_from cur (classify L <$> pre ++ PyNone :: post)
  = (cur ++ (_process_batch L <$> pre), Stopped)
      :: passes_from [] (classify L <$> post).
Proof. intros Hpre. by rewrite passes_from_data. Qed.

Lemma passes_exception cur pre e post :
  Forall (λ v, is_data v = true) pre → is_Exception e = true →
  passes_from cur (classify L <$> pre ++ PyExn e :: post)
  = (cur ++ (_process_batch L <$> pre), Raised (leaving_generator e))
      :: passes_from [] (classify L <$> post).
Proof. intros Hpre He. rewrite passes_from_data by done. simpl. by rewrite He. Qed.

(** A pass through the queue never gets past a [None] batch. *)
Lemma head_passes_none xs : ∀ i cur rest p,
  xs !! i = Some PyNone →
  head (passes_from cur (classify L <$> xs ++ rest)) = Some p →
  ∃ i', (i' ≤ i)%nat ∧ p.1 = cur ++ (_process_batch L <$> take i' xs).
Proof.
  induction xs as [|x xs IH]; intros i cur rest p Hi Hp; [done|].
  destruct x as [|e|r]; simpl in Hp; [|destruct (is_Exception e); simpl in Hp|].
  1,2: exists O; split; [lia|]; simplify_eq; simpl; by rewrite app_nil_r.
  all: destruct i as [|i]; [done|]; simpl in Hi.
  all: destruct (IH _ _ _ _ Hi Hp) as (i' & Hle & ->).
  all: exists (S i'); split; [lia|]; simpl; by rewrite <- (assoc_L (++)).
Qed.
End Facts.

Lemma plain_workers n : Forall plain (workers n).
Proof. induction n; simpl; by constructor. Qed.

Lemma plain_consumers n : Forall plain (consumers n).
Proof. induction n; simpl; by constructor. Qed.

Lemma plain_ahead w c : Forall plain (ahead w c).
Proof.
  unfold ahead. repeat apply Forall_cons_2; try done. simpl.
  apply Forall_app. split; [apply plain_workers|apply plain_consumers].
Qed.

Lemma clean_loader g i : clean g → clean (_iterate (loader g) i).
Proof. done. Qed.

(** C1, as stated, fails: with the pass [A, None, B] the first pass of
    [__iter__] yields [A] alone and stops, although the source produced
    three batches and ended normally. *)
Lemma C1_counterexample :
  Forall plain (ahead 12 3) ∧
  ending_of (_iterate L_none 0) = StopIteration ∧
  items (_iterate L_none 0) = [A; PyNone; B] ∧
  (run L_none (ahead 12 3) (new 5) ≫= λ '(_, tr), passes tr !! 0%nat)
  = Some ([A], Stopped).
Proof. split; [apply plain_ahead|]. by vm_compute. Qed.

(** C1, amended: asynchronous mode, no [close_async_loader] and no dropped
    iterator.  If the passes [0..j] of the source end normally and none of
    their batches is [None] or an [Exception] instance, then pass [j] of
    [__iter__] yields the batches of pass [j] of the source, each through
    [_process_batch], in order, and stops without yielding the marker.
    Until that pass has ended the execution is bounded and never stuck. *)
Theorem C1_clean_pass_in_order L size sched s tr j :
  0 < size → Forall plain sched →
  (∀ i, (i ≤ j)%nat → clean (_iterate L i)) →
  run L sched (new size) = Some (s, tr) →
  (∀ p, passes tr !! j = Some p →
        p = (_process_batch L <$> items (_iterate L j), Stopped)) ∧
  ((length (passes tr) ≤ j)%nat →
   (length sched ≤ step_bound (upto L j) size)%nat ∧
   ∃ act, plain act ∧ is_Some (step L act s)).
Proof.
  intros Hpos Hpl Hcl Hrun. split.
  - intros p Hp.
    eapply async_pass in Hp; [|done..|intros; apply Hcl; lia].
    unfold passes in Hp.
    rewrite <- (app_nil_r (pass_stream _)), passes_clean in Hp by (by apply Hcl).
    by simplify_eq/=.
  - intros Hlen. eapply async_live; [done..|].
    pose proof (passes_upto_length L j) as Hj.
    assert (∀ i, (i < j)%nat → clean (_iterate L i)) as Hcl' by (intros; apply Hcl; lia).
    specialize (Hj Hcl'). lia.
Qed.

Lemma prefix_snoc_strict {A} (l xs : list A) x :
  l `prefix_of` xs ++ [x] → l ≠ xs ++ [x] → l `prefix_of` xs.
Proof.
  intros [k Hk] Hne. destruct k as [|y k _] using rev_ind.
  - rewrite app_nil_r in Hk. by subst.
  - rewrite (assoc_L (++)) in Hk. apply app_inj_tail in Hk as [-> _]. by eexists.
Qed.

Lemma pass_stream_length g : (0 < length (pass_stream g))%nat.
Proof.
  unfold pass_stream. rewrite length_app.
  destruct (ending_of g) as [|e]; [|destruct (is_Exception e)]; simpl; lia.
Qed.

Section Fault.
Context (L : DataLoader) (j : nat) (e : exn).
Context (Hclean : ∀ i, (i < j)%nat → clean (_iterate L i)).
Context (Hdata : Forall (λ v, is_data v = true) (items (_iterate L j))).
Context (Hend : ending_of (_iterate L j) = Raises e).
Context (Hexc : is_Exception e = true).

Lemma fault_stream n :
  (j < n)%nat →
  worker_stream L 0 n
  = worker_stream L 0 j ++ items (_iterate L j)
      ++ [PyExn e; PyNone; PyNone].
Proof.
  intros Hn. rewrite (worker_stream_stop L j n); [| |congruence|done].
  - rewrite worker_stream_snoc. + unfold pass_stream. by rewrite Hend, Hexc.
    + by apply all_exhausted_clean.
  - by apply all_exhausted_clean.
Qed.

Lemma fault_stream_passes n :
  (j < n)%nat → passes (classify L <$> worker_stream L 0 n) = fault_passes L j e.
Proof.
  intros Hn. rewrite fault_stream by done. unfold passes, fault_passes.
  rewrite worker_stream_clean by done. f_equal.
  by rewrite passes_exception.
Qed.

Context (size : Z) (sched : list action) (s : state) (tr : list event).
Context (Hpos : 0 < size) (Hplain : Forall plain sched).
Context (Hrun : run L sched (new size) = Some (s, tr)).

Lemma fault_prefix : passes tr `prefix_of` fault_passes L j e.
Proof.
  rewrite <- (fault_stream_passes (S j + iterate_calls s)) by lia.
  eapply async_passes; [done..|lia].
Qed.

Lemma fault_puts :
  puts tr `prefix_of`
    worker_stream L 0 j ++ items (_iterate L j)
      ++ [PyExn e; PyNone; PyNone].
Proof.
  rewrite <- (fault_stream (S j + iterate_calls s)) by lia.
  eapply async_puts; [done..|lia].
Qed.

Lemma fault_live :
  (length (passes tr) ≤ j + 2)%nat →
  (length sched ≤ step_bound (upto L j) size)%nat ∧
  ∃ act, plain act ∧ is_Some (step L act s).
Proof.
  intros Hlen. eapply async_live; [done..|].
  rewrite fault_stream_passes by lia. unfold fault_passes.
  rewrite length_app, length_fmap, length_seq. simpl. lia.
Qed.

(** Once the three passes the fault ends have been read, the queue is
    empty and the worker is gone. *)
Lemma fault_end a :
  length (passes tr) = (j + 3)%nat → attrs s = Some a →
  thread a = Exited ∧ Queue.elems (queue a) = [].
Proof.
  intros Hlen Hat.
  pose proof (reach_open L size sched s tr Hpos Hplain Hrun)
    as ([_ Hinv] & _ & a' & Hat' & _ & Hw & Hv).
  rewrite Hat in Hat'. injection Hat' as <-. rewrite Hat in Hinv.
  destruct Hinv as [_ _ _ I4 _ _ _ _ _].
  set (full := worker_stream L 0 j ++ items (_iterate L j)
                 ++ [PyExn e; PyNone; PyNone]) in *.
  assert (gets tr = full) as Hg.
  { assert (gets tr `prefix_of` full) as Hpre.
    { etrans; [by eapply async_gets|apply fault_puts]. }
    destruct (decide (length full ≤ length (gets tr))%nat) as [|Hlt];
      [by apply prefix_length_eq|exfalso].
    assert (gets tr ≠ full) as Hne by (intros Heq; rewrite Heq in Hlt; lia).
    unfold full in Hpre, Hne.
    rewrite !(assoc_L (++) _ _ [_; _; _]) in Hpre, Hne.
    change [PyExn e; PyNone; PyNone]
      with ([PyExn e; PyNone] ++ [PyNone]) in Hpre, Hne.
    rewrite (assoc_L (++)) in Hpre, Hne.
    apply prefix_snoc_strict in Hpre; [|done].
    assert (view tr `prefix_of`
              classify L <$> (worker_stream L 0 j ++ items (_iterate L j))
                               ++ [PyExn e; PyNone]) as Hpre'.
    { destruct Hpre as [k ->]. rewrite Hv, fmap_app. by eexists. }
    clear Hpre. rename Hpre' into Hpre.
    apply passes_prefix, prefix_length in Hpre.
    unfold passes at 1 in Hpre. rewrite passes_from_view in Hpre.
    fold (passes tr) in Hpre. rewrite Hlen in Hpre.
    unfold passes in Hpre. rewrite <- !(assoc_L (++)) in Hpre.
    rewrite worker_stream_clean in Hpre by done.
    rewrite passes_exception in Hpre by done.
    rewrite length_app, length_fmap, length_seq in Hpre. simpl in Hpre. lia. }
  assert (puts tr = full) as Hp.
  { apply (anti_symm prefix); [apply fault_puts|].
    rewrite <- Hg. by eapply async_gets. }
  split.
  - assert (all_exhausted L j) as Hex by (by apply all_exhausted_clean).
    assert (∀ k, all_exhausted L k → (k ≤ j)%nat) as Hk.
    { intros k Hk. destruct (decide (k ≤ j)%nat); [done|].
      rewrite Hk in Hend by lia. done. }
    assert (length (worker_stream L 0 j) < length full)%nat as Hlt.
    { unfold full. rewrite !length_app. simpl. lia. }
    assert (length full = length (worker_stream L 0 (S j))) as Hfull.
    { unfold full. by rewrite <- (fault_stream (S j)) by lia. }
    clearbody full.
    destruct (thread a) as [|pc|]; simpl in Hw; [| |done].
    + destruct Hw as [_ Hw]. rewrite Hw in Hp. rewrite <- Hp in Hlt. simpl in Hlt. exfalso. lia.
    + destruct pc;
        [destruct Hw as [Hall Heq]|destruct Hw as (k' & Hk' & Hall & _ & Heq)..].
      { apply Hk in Hall.
        pose proof (prefix_length _ _ (worker_stream_le L 0 _ _ Hall)).
        apply (f_equal length) in Heq, Hp. exfalso.
        rewrite Heq in Hp. rewrite Hp in H. by apply Nat.lt_nge in Hlt. }
      all: apply Hk in Hall.
      all: assert (S k' ≤ S j)%nat as Hle by lia.
      all: pose proof (prefix_length _ _ (worker_stream_le L 0 _ _ Hle)) as Hl.
      all: apply (f_equal length) in Heq, Hp; rewrite length_app in Heq;
        simpl in Heq; exfalso;
        try match goal with g : generator |- _ =>
              pose proof (pass_stream_length g) end; lia.
  - rewrite Hg, Hp in I4. by apply (inj (app full)); rewrite app_nil_r.
Qed.

Lemma fault_stuck :
  length (passes tr) = (j + 3)%nat → consumer s = I122 →
  ∀ act, step L act s = None.
Proof.
  intros Hlen Hpc act.
  pose proof (reach_open L size sched s tr Hpos Hplain Hrun)
    as (_ & _ & a & Hat & _).
  destruct (fault_end a Hlen Hat) as [Ht Hq].
  destruct s as [sz at_ k pc]; simpl in *; subst.
  destruct act; simpl; rewrite ?Ht; try done.
  unfold Queue.get. by rewrite Hq.
Qed.
End Fault.

Lemma C1_clean_pass_witness :
  ∃ s tr, run L_abc (ahead 12 7) (new 5) = Some (s, tr) ∧
    (∀ p, passes tr !! 0%nat = Some p →
          p = (_process_batch L_abc <$> items (_iterate L_abc 0), Stopped)) ∧
    ((length (passes tr) ≤ 0)%nat →
     (length (ahead 12 7) ≤ step_bound (upto L_abc 0) 5)%nat ∧
     ∃ act, plain act ∧ is_Some (step L_abc act s)).
Proof.
  eexists _, _. split; [vm_compute; reflexivity|].
  apply (C1_clean_pass_in_order L_abc 5 (ahead 12 7) _ _ 0).
  - lia.
  - apply plain_ahead.
  - intros i _. split; [reflexivity|]. repeat constructor.
  - vm_compute; reflexivity.
Defined.

(** C2, as stated, fails: when the source raises, the worker puts two
    markers for its exit, one in the handler (line 105) and one in
    [finally] (line 107). *)
Lemma C2_counterexample :
  (run L_fault (ahead 8 0) (new 5)
     ≫= λ '(s, tr), Some (thread <$> attrs s, puts tr, exit_markers tr))
  = Some (Some Exited, [A; PyExn disk_error; PyNone; PyNone], 2%nat).
Proof. by vm_compute. Qed.

(** C2, amended: when the worker has exited, whatever the caller did, it
    has put exactly one marker in [finally] (line 107), and that is its
    last put; the source has raised in it at most once, and every call of
    [_iterate] whose pass did not raise has got one pass marker (line 102).
    The worker leaves in one of three ways.  Nothing was raised: then
    [finished_event] is set (the worker has no other normal end), the
    marker of [finally] is the only exit marker and no error was put.  The
    last call of [_iterate] raised an [Exception] [e]: then the handler has
    put [e] (line 104) and a marker right after it (line 105), so the
    worker's last three puts are [e], marker, marker: two exit markers for
    the one exit.  It raised something that is not an [Exception]: the
    handler is passed by, and the marker of [finally] is the only one. *)
Theorem C2_exit_markers L size sched s tr a :
  run L sched (new size) = Some (s, tr) →
  attrs s = Some a → thread a = Exited →
  finally_markers tr = 1%nat ∧
  (pass_markers tr + length (raised tr))%nat = iterate_calls s ∧
  ∃ pre,
    match raised tr with
    | [] =>
        finished_event a = true ∧ exit_markers tr = 1%nat ∧ errors tr = O ∧
        site_puts tr = pre ++ [(L107, PyNone)]
    | [e] =>
        ending_of (_iterate L (pass_markers tr)) = Raises e ∧
        if is_Exception e
        then exit_markers tr = 2%nat ∧ errors tr = 1%nat ∧
             site_puts tr
             = pre ++ [(L104, PyExn e); (L105, PyNone); (L107, PyNone)]
        else exit_markers tr = 1%nat ∧ errors tr = O ∧
             site_puts tr = pre ++ [(L107, PyNone)]
    | _ => False
    end.
Proof.
  intros Hrun Hat Ht. pose proof (reach_markers L size sched s tr Hrun) as Hm.
  unfold markers_inv in Hm. rewrite Hat, Ht in Hm. exact Hm.
Qed.

Lemma C2_exit_markers_witness :
  ∃ s tr a, run L_fault (ahead 8 0) (new 5) = Some (s, tr) ∧
    attrs s = Some a ∧ thread a = Exited ∧
    finally_markers tr = 1%nat ∧
    (pass_markers tr + length (raised tr))%nat = iterate_calls s ∧
    ∃ pre,
      match raised tr with
      | [] =>
          finished_event a = true ∧ exit_markers tr = 1%nat ∧ errors tr = O ∧
          site_puts tr = pre ++ [(L107, PyNone)]
      | [e] =>
          ending_of (_iterate L_fault (pass_markers tr)) = Raises e ∧
          if is_Exception e
          then exit_markers tr = 2%nat ∧ errors tr = 1%nat ∧
               site_puts tr
               = pre ++ [(L104, PyExn e); (L105, PyNone); (L107, PyNone)]
          else exit_markers tr = 1%nat ∧ errors tr = O ∧
               site_puts tr = pre ++ [(L107, PyNone)]
      | _ => False
      end.
Proof.
  eexists _, _, _. split; [vm_compute; reflexivity|].
  split; [reflexivity|]. split; [reflexivity|].
  eapply (C2_exit_markers L_fault 5 (ahead 8 0)).
  - vm_compute; reflexivity.
  - reflexivity.
  - reflexivity.
Defined.

(** The other two ways out of the worker, run: signalled by
    [close_async_loader] in the middle of a pass, it puts the marker of
    the pass and the marker of [finally]; interrupted by something that is
    not an [Exception], it puts the marker of [finally] alone. *)
Lemma exit_paths_example :
  (run L_abc (ahead 7 1 ++ [Abandon; CallClose; Consumer] ++ workers 5) (new 5)
     ≫= λ '(s, tr), Some (thread <$> attrs s, raised tr, site_puts tr))
  = Some (Some Exited, [],
          [(L101, A); (L101, B); (L102, PyNone); (L107, PyNone)]) ∧
  (run L_interrupt (ahead 9 0) (new 5)
     ≫= λ '(s, tr), Some (thread <$> attrs s, raised tr, site_puts tr))
  = Some (Some Exited, [BaseException "KeyboardInterrupt"],
          [(L101, A); (L101, B); (L107, PyNone)]).
Proof. split; by vm_compute. Qed.




Lemma plain_after_fault : Forall plain after_fault.
Proof.
  unfold after_fault. apply Forall_app. split; [apply plain_ahead|].
  by repeat constructor.
Qed.

(** C4, as stated, fails: after the fault the first two further calls of
    [__iter__] stop cleanly, each on one of the two markers that follow the
    error; the third finds the queue empty and the worker gone, and no
    action is enabled any more: it blocks forever in [get]. *)
Lemma C4_counterexample :
  ∃ s tr, run L_fault after_fault (new 5) = Some (s, tr) ∧
    passes tr = [([A], Raised disk_error); ([], Stopped); ([], Stopped)] ∧
    consumer s = I122 ∧
    ∀ act, step L_fault act s = None.
Proof.
  eexists _, _. split; [vm_compute; reflexivity|].
  split; [by vm_compute|]. split; [done|]. by intros [].
Qed.

(** C4, amended: in the setting of C3 (asynchronous mode, no
    [close_async_loader], no dropped iterator, clean passes before [j],
    pass [j] yielding ordinary batches and then raising an [Exception]
    [e]), the passes of [__iter__] after the one that raises are at most
    two, both empty and clean; they do end, the execution being bounded and
    never stuck until then; and a call made after them blocks forever in
    [get]: no action is enabled. *)
Theorem C4_after_fault L size sched s tr j e :
  0 < size → Forall plain sched →
  (∀ i, (i < j)%nat → clean (_iterate L i)) →
  Forall (λ v, is_data v = true) (items (_iterate L j)) →
  ending_of (_iterate L j) = Raises e → is_Exception e = true →
  run L sched (new size) = Some (s, tr) →
  passes tr `prefix_of`
    (direct L <$> seq 0 j) ++
    [(_process_batch L <$> items (_iterate L j), Raised (leaving_generator e));
     ([], Stopped); ([], Stopped)] ∧
  ((length (passes tr) ≤ j + 2)%nat →
   (length sched ≤ step_bound (upto L j) size)%nat ∧
   ∃ act, plain act ∧ is_Some (step L act s)) ∧
  (length (passes tr) = (j + 3)%nat → consumer s = I122 →
   ∀ act, step L act s = None).
Proof.
  intros Hpos Hpl Hcl Hdata Hend Hexc Hrun. split_and!.
  - by eapply fault_prefix.
  - by eapply fault_live.
  - by eapply fault_stuck.
Qed.

Lemma C4_after_fault_witness :
  ∃ s tr, run L_fault after_fault (new 5) = Some (s, tr) ∧
    passes tr `prefix_of`
      (direct L_fault <$> seq 0 0) ++
      [(_process_batch L_fault <$> items (_iterate L_fault 0),
        Raised (leaving_generator disk_error));
       ([], Stopped); ([], Stopped)] ∧
    ((length (passes tr) ≤ 0 + 2)%nat →
     (length after_fault ≤ step_bound (upto L_fault 0) 5)%nat ∧
     ∃ act, plain act ∧ is_Some (step L_fault act s)) ∧
    (length (passes tr) = (0 + 3)%nat → consumer s = I122 →
     ∀ act, step L_fault act s = None).
Proof.
  eexists _, _. split; [vm_compute; reflexivity|].
  apply (C4_after_fault L_fault 5 after_fault _ _ 0 disk_error).
  - lia.
  - apply plain_after_fault.
  - intros i Hi. lia.
  - repeat constructor.
  - reflexivity.
  - reflexivity.
  - vm_compute; reflexivity.
Defined.

(** C5, as stated, fails: [__init__] raises nothing for a negative size;
    it builds an object without queue, thread or event. *)
Lemma C5_counterexample :
  __init__ (-1) = inr (State (-1) None 0 Caller).
Proof. reflexivity. Qed.

(** C5, amended: for every negative size [__init__] succeeds and the
    object is in synchronous mode: it has no asynchronous attributes, and a
    pass of [__iter__] reads the source directly and starts no thread. *)
Theorem C5_negative_is_synchronous size :
  size < 0 →
  ∃ s, __init__ size = inr s ∧ s = new size ∧ attrs s = None ∧
       ∀ L, ∃ s' tr,
         run L (CallIter :: repeat Consumer (2 * length (items (_iterate L 0)) + 2)) s
         = Some (s', tr) ∧
         passes tr = [direct L 0] ∧ starts tr = O ∧ consumer s' = Caller.
Proof.
  intros Hneg. assert ((0 <? size) = false) as Hlt by (apply Z.ltb_ge; lia).
  exists (new size). unfold new, __init__. rewrite Hlt. split_and!; try done.
  intros L. destruct (run_sync_pass L size 0) as (tr & Hr & Hp); [lia|].
  eexists _, tr. split; [done|]. split; [done|]. split; [|done].
  assert (inv size (State size None 1 Caller) ([] ++ tr)) as [_ Hinv].
  { eapply run_inv; [|done]. pose proof (new_inv size) as Hn.
    unfold new, __init__ in Hn. by rewrite Hlt in Hn. }
  simpl in Hinv. by destruct Hinv as (_ & ? & _).
Qed.

Lemma C5_negative_is_synchronous_witness :
  -1 < 0 ∧
  ∃ s, __init__ (-1) = inr s ∧ s = new (-1) ∧ attrs s = None ∧
       ∀ L, ∃ s' tr,
         run L (CallIter :: repeat Consumer (2 * length (items (_iterate L 0)) + 2)) s
         = Some (s', tr) ∧
         passes tr = [direct L 0] ∧ starts tr = O ∧ consumer s' = Caller.
Proof. split; [lia|]. apply (C5_negative_is_synchronous (-1)). lia. Defined.

Section SyncFacts.
Context (L : DataLoader).

Lemma sync_state size sched s tr :
  size ≤ 0 → run L sched (new size) = Some (s, tr) →
  s = State size None (iterate_calls s) (consumer s) ∧
  starts tr = O ∧ puts tr = [] ∧ gets tr = [].
Proof.
  intros Hneg Hrun. destruct (reach_inv L size sched s tr Hrun) as [Hsz Hinv].
  destruct s as [sz [a|] k pc]; simpl in *; subst.
  - destruct Hinv. lia.
  - by destruct Hinv as (_ & ? & ? & ? & _).
Qed.

Lemma sync_next_pass size sched s tr :
  size ≤ 0 → run L sched (new size) = Some (s, tr) → consumer s = Caller →
  ∃ s' tr',
    run L (CallIter :: repeat Consumer
                         (2 * length (items (_iterate L (iterate_calls s))) + 2)) s
    = Some (s', tr') ∧
    passes tr' = [direct L (iterate_calls s)] ∧ consumer s' = Caller.
Proof.
  intros Hneg Hrun Hpc. destruct (sync_state size sched s tr Hneg Hrun) as [Hs _].
  rewrite Hpc in Hs.
  destruct (run_sync_pass L size (iterate_calls s) Hneg) as (tr' & Hr & Hp).
  rewrite <- Hs in Hr. by eexists _, _.
Qed.
End SyncFacts.

Section Lifecycle.
Context (L : DataLoader).



Lemma step_started act s s' evs a :
  attrs s = Some a → started a = true → step L act s = Some (s', evs) →
  ∃ a', attrs s' = Some a' ∧ started a' = true.
Proof.
  intros Hat Hfin Hstep. destruct s as [sz at_ k pc]; simpl in *; subst.
  destruct act; step_cases Hstep; simpl in *; eauto.
Qed.

Lemma run_started sched s s' tr' a :
  attrs s = Some a → started a = true → run L sched s = Some (s', tr') →
  ∃ a', attrs s' = Some a' ∧ started a' = true.
Proof.
  intros Hat Hfin Hrun.
  refine (run_ind L (λ s _, ∃ a, attrs s = Some a ∧ started a = true)
            (λ _, True) _ sched s [] s' tr' _ _ Hrun).
  - intros act s0 s1 _ evs _ (a0 & Hat0 & Hfin0) Hs. by eapply step_started.
  - by apply Forall_true.
  - eauto.
Qed.

(** Once the flag is set no thread is started any more. *)
Lemma started_no_start size sched s tr sched' s' tr' a :
  run L sched (new size) = Some (s, tr) → attrs s = Some a → started a = true →
  run L sched' s = Some (s', tr') → starts tr' = O.
Proof.
  intros Hrun Hat Hst Hrun'.
  pose proof (reach_inv L size sched s tr Hrun) as Hinv.
  pose proof (run_inv L size sched' s tr s' tr' Hinv Hrun') as [_ Hinv'].
  destruct (run_started sched' s s' tr' a Hat Hst Hrun') as (a' & Hat' & Hst').
  destruct Hinv as [_ Hinv]. rewrite Hat in Hinv. rewrite Hat' in Hinv'.
  destruct Hinv as [_ _ _ _ _ I6 _ _ _]. destruct Hinv' as [_ _ _ _ _ I6' _ _ _].
  rewrite Hst in I6. rewrite Hst', starts_app in I6'. lia.
Qed.
End Lifecycle.

(** C6: with [async_loader_queue_size = 0] no execution ever has a queue,
    a thread or an event, starts a worker or lets one step; every pass of
    [__iter__] that ends is the pass [BaseDataLoader.__iter__] reads from
    the source with [_process_batch] applied ([direct]); and whenever the
    caller is in its own code, beginning an iteration and driving it
    yields that pass. *)
Theorem C6_synchronous_mode L sched s tr :
  run L sched (new 0) = Some (s, tr) →
  attrs s = None ∧ starts tr = O ∧ puts tr = [] ∧ step L Worker s = None ∧
  (Forall plain sched → ∀ j p, passes tr !! j = Some p → p = direct L j) ∧
  (consumer s = Caller →
   ∃ s' tr',
     run L (CallIter :: repeat Consumer
                          (2 * length (items (_iterate L (iterate_calls s))) + 2)) s
     = Some (s', tr') ∧
     passes tr' = [direct L (iterate_calls s)] ∧ consumer s' = Caller).
Proof.
  intros Hrun.
  destruct (sync_state L 0 sched s tr) as (Hs & Hst & Hp & _); [lia|done|].
  split_and!; try done.
  - by rewrite Hs.
  - by rewrite Hs.
  - intros Hpl j p. eapply sync_pass; [|done..]. lia.
  - eapply sync_next_pass; [|done]. lia.
Qed.

Lemma C6_synchronous_mode_witness :
  ∃ s tr, run L_abc (CallIter :: consumers 8) (new 0) = Some (s, tr) ∧
    attrs s = None ∧ starts tr = O ∧ puts tr = [] ∧ step L_abc Worker s = None ∧
    (Forall plain (CallIter :: consumers 8) →
     ∀ j p, passes tr !! j = Some p → p = direct L_abc j) ∧
    (consumer s = Caller →
     ∃ s' tr',
       run L_abc (CallIter :: repeat Consumer
                    (2 * length (items (_iterate L_abc (iterate_calls s))) + 2)) s
       = Some (s', tr') ∧
       passes tr' = [direct L_abc (iterate_calls s)] ∧ consumer s' = Caller).
Proof.
  eexists _, _. split; [vm_compute; reflexivity|].
  apply (C6_synchronous_mode L_abc (CallIter :: consumers 8)).
  vm_compute; reflexivity.
Defined.




(** C8: the worker thread is started at most once.  [started] is false in
    a new object; in every execution the number of starts is 1 if
    [started] is set and 0 if not, and [started] is unset exactly while the
    thread is unstarted; once set it stays set and no further start
    happens; and it is the first run of the body of [__iter__] that sets it
    and starts the thread. *)
Theorem C8_started_once L size sched s tr :
  run L sched (new size) = Some (s, tr) →
  (starts tr ≤ 1)%nat ∧
  (∀ a, attrs (new size) = Some a → started a = false ∧ thread a = Unstarted) ∧
  (∀ a, attrs s = Some a →
        starts tr = (if started a then 1 else 0)%nat ∧
        (started a = false ↔ thread a = Unstarted)) ∧
  (∀ a sched' s' tr',
      attrs s = Some a → started a = true → run L sched' s = Some (s', tr') →
      starts tr' = O ∧ ∃ a', attrs s' = Some a' ∧ started a' = true) ∧
  (∀ a, attrs s = Some a → started a = false → consumer s = I116 →
        ∃ s' a', step L Consumer s = Some (s', [EStart]) ∧
                 attrs s' = Some a' ∧ started a' = true ∧
                 thread a' = Running W97).
Proof.
  intros Hrun. pose proof (reach_inv L size sched s tr Hrun) as [Hsz Hinv].
  split_and!.
  - destruct (attrs s) as [a|].
    + destruct Hinv as [_ _ _ _ _ I6 _ _ _]. rewrite I6. destruct (started a); lia.
    + destruct Hinv as (_ & -> & _). lia.
  - intros a Ha. unfold new in Ha; simpl in Ha.
    destruct (0 <? size); by simplify_eq.
  - intros a Ha. rewrite Ha in Hinv. by destruct Hinv.
  - intros a sched' s' tr' Ha Hst Hrun'. split.
    + by eapply started_no_start.
    + by eapply run_started.
  - intros a Ha Hst Hpc. rewrite Ha in Hinv. destruct Hinv as [I1 _ _ _ _ _ _ _ _].
    destruct s as [sz at_ k pc]; simpl in *; subst. unfold step; simpl.
    assert ((0 <? size) = true) as -> by (by apply Z.ltb_lt). simpl.
    rewrite Hst. by eexists _, _.
Qed.

Lemma C8_started_once_witness :
  ∃ s tr, run L_abc (ahead 12 7 ++ ahead 12 7) (new 5) = Some (s, tr) ∧
    (starts tr ≤ 1)%nat ∧
    (∀ a, attrs (new 5) = Some a → started a = false ∧ thread a = Unstarted) ∧
    (∀ a, attrs s = Some a →
          starts tr = (if started a then 1 else 0)%nat ∧
          (started a = false ↔ thread a = Unstarted)) ∧
    (∀ a sched' s' tr',
        attrs s = Some a → started a = true → run L_abc sched' s = Some (s', tr') →
        starts tr' = O ∧ ∃ a', attrs s' = Some a' ∧ started a' = true) ∧
    (∀ a, attrs s = Some a → started a = false → consumer s = I116 →
          ∃ s' a', step L_abc Consumer s = Some (s', [EStart]) ∧
                   attrs s' = Some a' ∧ started a' = true ∧
                   thread a' = Running W97).
Proof.
  eexists _, _. split; [vm_compute; reflexivity|].
  apply (C8_started_once L_abc 5 (ahead 12 7 ++ ahead 12 7)).
  vm_compute; reflexivity.
Defined.

(** C9: a batch that is [None] at position [i] of pass [j] of the source.
    Asynchronous mode (no close, no dropped iterator, clean passes before
    [j]): pass [j] of [__iter__] yields a prefix of the first [i] batches,
    and exactly the first [i], stopping cleanly, when those are ordinary
    data; the pass does end, the execution being bounded and never stuck
    until then.  Synchronous mode: the pass is the direct one, and its
    yield number [i] is that [None] batch. *)
Theorem C9_none_batch_ends_pass L size sched s tr j i :
  Forall plain sched → run L sched (new size) = Some (s, tr) →
  items (_iterate L j) !! i = Some PyNone →
  (0 < size → (∀ k, (k < j)%nat → clean (_iterate L k)) →
   (∀ p, passes tr !! j = Some p →
         (∃ i', (i' ≤ i)%nat ∧
                p.1 = _process_batch L <$> take i' (items (_iterate L j))) ∧
         (Forall (λ v, is_data v = true) (take i (items (_iterate L j))) →
          p = (_process_batch L <$> take i (items (_iterate L j)), Stopped))) ∧
   ((length (passes tr) ≤ j)%nat →
    (length sched ≤ step_bound (upto L j) size)%nat ∧
    ∃ act, plain act ∧ is_Some (step L act s))) ∧
  (size ≤ 0 →
   (∀ p, passes tr !! j = Some p →
         p = direct L j ∧ p.1 !! i = Some (_process_batch L PyNone)) ∧
   (consumer s = Caller → iterate_calls s = j →
    ∃ s' tr',
      run L (CallIter :: repeat Consumer (2 * length (items (_iterate L j)) + 2)) s
      = Some (s', tr') ∧ passes tr' = [direct L j])).
Proof.
  intros Hpl Hrun Hi. split.
  - intros Hpos Hcl. split.
    + intros p Hp. eapply async_pass in Hp; [|done..].
      unfold passes, pass_stream in Hp. split.
      * destruct (head_passes_none L _ _ _ _ _ Hi Hp) as (i' & Hle & Heq).
        by exists i'.
      * intros Hdata. rewrite <- (take_drop_middle _ _ _ Hi) in Hp.
        rewrite <- !(assoc_L (++)) in Hp. simpl in Hp.
        rewrite passes_none in Hp by done. by simplify_eq/=.
    + intros Hlen. eapply async_live; [done..|].
      pose proof (passes_upto_length L j Hcl). lia.
  - intros Hneg. split.
    + intros p Hp. rewrite (sync_pass L size sched s tr j p Hneg Hpl Hrun Hp).
      split; [done|]. unfold direct, BaseDataLoader.__iter__. simpl.
      by rewrite list_lookup_fmap, Hi.
    + intros Hpc <-.
      destruct (sync_next_pass L size sched s tr Hneg Hrun Hpc) as (s' & tr' & ? & ? & _).
      by eexists _, _.
Qed.

Lemma C9_none_batch_ends_pass_witness :
  (∃ s tr, run L_none (ahead 12 3) (new 5) = Some (s, tr) ∧
     (∀ p, passes tr !! 0%nat = Some p →
           (∃ i', (i' ≤ 1)%nat ∧
                  p.1 = _process_batch L_none <$> take i' (items (_iterate L_none 0))) ∧
           (Forall (λ v, is_data v = true) (take 1 (items (_iterate L_none 0))) →
            p = (_process_batch L_none <$> take 1 (items (_iterate L_none 0)), Stopped))) ∧
     ((length (passes tr) ≤ 0)%nat →
      (length (ahead 12 3) ≤ step_bound (upto L_none 0) 5)%nat ∧
      ∃ act, plain act ∧ is_Some (step L_none act s))) ∧
  (∃ s tr, run L_none (CallIter :: consumers 8) (new 0) = Some (s, tr) ∧
     (∀ p, passes tr !! 0%nat = Some p →
           p = direct L_none 0 ∧ p.1 !! 1%nat = Some (_process_batch L_none PyNone)) ∧
     (consumer s = Caller → iterate_calls s = 0%nat →
      ∃ s' tr',
        run L_none (CallIter :: repeat Consumer
                      (2 * length (items (_iterate L_none 0)) + 2)) s
        = Some (s', tr') ∧ passes tr' = [direct L_none 0])).
Proof.
  split; eexists _, _; (split; [vm_compute; reflexivity|]).
  - refine (proj1 (C9_none_batch_ends_pass L_none 5 (ahead 12 3) _ _ 0 1 _ _ _) _ _).
    + apply plain_ahead.
    + vm_compute; reflexivity.
    + reflexivity.
    + lia.
    + intros k Hk. lia.
  - refine (proj2 (C9_none_batch_ends_pass L_none 0 (CallIter :: consumers 8)
                     _ _ 0 1 _ _ _) _).
    + constructor; [done|apply plain_consumers].
    + vm_compute; reflexivity.
    + reflexivity.
    + lia.
Defined.

(** C10: a batch [e] that is an [Exception] instance, after batches of
    ordinary data, in pass [j] of the source.  Asynchronous mode (no close,
    no dropped iterator, clean passes before [j]): pass [j] of [__iter__]
    yields the batches before it and then fails with it, as [raise batch]
    leaves the generator: with [e] itself, or with [RuntimeError] when [e]
    is a [StopIteration]; the pass does end, the execution being bounded
    and never stuck until then.  Synchronous mode: the pass yields it like
    any batch and goes on to the end of the source's pass. *)
Theorem C10_exception_batch_is_raised L size sched s tr j pre e post :
  Forall plain sched → run L sched (new size) = Some (s, tr) →
  items (_iterate L j) = pre ++ PyExn e :: post →
  is_Exception e = true →
  Forall (λ v, is_data v = true) pre →
  (0 < size → (∀ k, (k < j)%nat → clean (_iterate L k)) →
   (∀ p, passes tr !! j = Some p →
         p = (_process_batch L <$> pre, Raised (leaving_generator e))) ∧
   ((length (passes tr) ≤ j)%nat →
    (length sched ≤ step_bound (upto L j) size)%nat ∧
    ∃ act, plain act ∧ is_Some (step L act s))) ∧
  (size ≤ 0 →
   (∀ p, passes tr !! j = Some p →
         p = ((_process_batch L <$> pre)
                ++ _process_batch L (PyExn e) :: (_process_batch L <$> post),
              outcome_of (generator_ending (ending_of (_iterate L j))))) ∧
   (consumer s = Caller → iterate_calls s = j →
    ∃ s' tr',
      run L (CallIter :: repeat Consumer (2 * length (items (_iterate L j)) + 2)) s
      = Some (s', tr') ∧ passes tr' = [direct L j])).
Proof.
  intros Hpl Hrun Hit Hexc Hpre. split.
  - intros Hpos Hcl. split.
    + intros p Hp. eapply async_pass in Hp; [|done..].
      unfold passes, pass_stream in Hp. rewrite Hit, <- !(assoc_L (++)) in Hp.
      simpl in Hp. rewrite passes_exception in Hp by done. by simplify_eq/=.
    + intros Hlen. eapply async_live; [done..|].
      pose proof (passes_upto_length L j Hcl). lia.
  - intros Hneg. split.
    + intros p Hp. rewrite (sync_pass L size sched s tr j p Hneg Hpl Hrun Hp).
      unfold direct, BaseDataLoader.__iter__. by rewrite Hit, fmap_app.
    + intros Hpc <-.
      destruct (sync_next_pass L size sched s tr Hneg Hrun Hpc) as (s' & tr' & ? & ? & _).
      by eexists _, _.
Qed.

Lemma C10_exception_batch_is_raised_witness :
  (∃ s tr, run L_exn (ahead 12 3) (new 5) = Some (s, tr) ∧
     (∀ p, passes tr !! 0%nat = Some p →
           p = (_process_batch L_exn <$> [A],
                Raised (leaving_generator (Exception "oops")))) ∧
     ((length (passes tr) ≤ 0)%nat →
      (length (ahead 12 3) ≤ step_bound (upto L_exn 0) 5)%nat ∧
      ∃ act, plain act ∧ is_Some (step L_exn act s))) ∧
  (∃ s tr, run L_exn (CallIter :: consumers 8) (new 0) = Some (s, tr) ∧
     (∀ p, passes tr !! 0%nat = Some p →
           p = ((_process_batch L_exn <$> [A])
                  ++ _process_batch L_exn (PyExn (Exception "oops"))
                  :: (_process_batch L_exn <$> [B]),
                outcome_of (generator_ending (ending_of (_iterate L_exn 0))))) ∧
     (consumer s = Caller → iterate_calls s = 0%nat →
      ∃ s' tr',
        run L_exn (CallIter :: repeat Consumer
                     (2 * length (items (_iterate L_exn 0)) + 2)) s
        = Some (s', tr') ∧ passes tr' = [direct L_exn 0])).
Proof.
  split; eexists _, _; (split; [vm_compute; reflexivity|]).
  - refine (proj1 (C10_exception_batch_is_raised L_exn 5 (ahead 12 3) _ _ 0
                     [A] (Exception "oops") [B] _ _ _ _ _) _ _).
    + apply plain_ahead.
    + vm_compute; reflexivity.
    + reflexivity.
    + reflexivity.
    + repeat constructor.
    + lia.
    + intros k Hk. lia.
  - refine (proj2 (C10_exception_batch_is_raised L_exn 0 (CallIter :: consumers 8)
                     _ _ 0 [A] (Exception "oops") [B] _ _ _ _ _) _).
    + constructor; [done|apply plain_consumers].
    + vm_compute; reflexivity.
    + reflexivity.
    + reflexivity.
    + repeat constructor.
    + lia.
Defined.

(** [StopIteration] on its way through the generator [__iter__]: raised
    by [_iterate] it is queued as itself by the worker, and raised by
    [_iterate] in synchronous mode or yielded as a batch in asynchronous
    mode it reaches the caller as [RuntimeError]; in synchronous mode a
    batch that is a [StopIteration] instance is a batch like any other. *)
Lemma stop_iteration_example :
  (run L_stop (ahead 5 1) (new 5) ≫= λ '(_, tr), Some (puts tr, passes tr))
  = Some ([PyExn (StopIterationExc "stop"); PyNone; PyNone],
          [([], Raised RuntimeError)]) ∧
  (run L_stop (CallIter :: consumers 2) (new 0) ≫= λ '(_, tr), Some (passes tr))
  = Some [([], Raised RuntimeError)] ∧
  (run L_stop_batch (ahead 12 3) (new 5) ≫= λ '(_, tr), Some (passes tr))
  = Some [([A], Raised RuntimeError)] ∧
  (run L_stop_batch (CallIter :: consumers 8) (new 0)
     ≫= λ '(_, tr), Some (passes tr))
  = Some [([A; PyExn (StopIterationExc "stop"); B], Stopped)].
Proof. split_and!; by vm_compute. Qed.

(** ** Further properties of the code *)

(** X1: the queue never holds more than [async_loader_queue_size] objects,
    and it is a FIFO channel that loses and invents nothing: the objects
    put are the objects taken out, by [get] or by the drain of
    [close_async_loader], followed by the objects still queued. *)
Theorem X1_queue_bounded_fifo L size sched s tr a :
  run L sched (new size) = Some (s, tr) → attrs s = Some a →
  Queue.maxsize (queue a) = size ∧
  Queue.qsize (queue a) ≤ size ∧
  puts tr = gets tr ++ Queue.elems (queue a).
Proof.
  intros Hrun Hat. destruct (reach_inv L size sched s tr Hrun) as [_ Hinv].
  rewrite Hat in Hinv. by destruct Hinv.
Qed.

Lemma X1_queue_bounded_fifo_witness :
  ∃ s tr a, run L_abc (ahead 7 1) (new 2) = Some (s, tr) ∧ attrs s = Some a ∧
    Queue.maxsize (queue a) = 2 ∧
    Queue.qsize (queue a) ≤ 2 ∧
    puts tr = gets tr ++ Queue.elems (queue a).
Proof.
  eexists _, _, _. split; [vm_compute; reflexivity|]. split; [reflexivity|].
  eapply (X1_queue_bounded_fifo L_abc 2 (ahead 7 1)).
  - vm_compute; reflexivity.
  - reflexivity.
Defined.

(** X2: while [close_async_loader] is not called and no iterator is
    dropped, what the worker has put is always a prefix of its passes laid
    end to end, each followed by its marker and the last one being the
    first that raises; the caller pops a prefix of that, and answers each
    popped object once: [None] ends the pass, an [Exception] instance is
    raised ([RuntimeError] in its place when it is a [StopIteration], for
    [__iter__] is a generator), anything else is yielded through
    [_process_batch]. *)
Theorem X2_worker_puts_follow_passes L size sched s tr n :
  0 < size → Forall plain sched → run L sched (new size) = Some (s, tr) →
  (iterate_calls s ≤ n)%nat →
  puts tr `prefix_of` worker_stream L 0 n ∧
  gets tr `prefix_of` puts tr ∧
  view tr = classify L <$> gets tr.
Proof.
  intros Hpos Hpl Hrun Hn. split_and!.
  - by eapply async_puts.
  - by eapply async_gets.
  - by destruct (reach_open L size sched s tr Hpos Hpl Hrun)
      as (_ & _ & a & _ & _ & _ & ?).
Qed.

Lemma X2_worker_puts_follow_passes_witness :
  ∃ s tr, run L_abc (ahead 12 7 ++ ahead 12 7) (new 5) = Some (s, tr) ∧
    puts tr `prefix_of` worker_stream L_abc 0 3 ∧
    gets tr `prefix_of` puts tr ∧
    view tr = classify L_abc <$> gets tr.
Proof.
  eexists _, _. split; [vm_compute; reflexivity|].
  eapply (X2_worker_puts_follow_passes L_abc 5 (ahead 12 7 ++ ahead 12 7)).
  - lia.
  - apply Forall_app. split; apply plain_ahead.
  - vm_compute; reflexivity.
  - vm_compute. lia.
Defined.

(** X3: [close_async_loader] drains the queue and joins the thread only
    after it has set [finished_event], and only on a loader whose thread
    was started: it never joins an unstarted thread. *)
Theorem X3_drain_and_join_after_start L size sched s tr :
  run L sched (new size) = Some (s, tr) →
  consumer s = C84 ∨ consumer s = C88 →
  ∃ a, attrs s = Some a ∧ finished_event a = true ∧ started a = true ∧
       thread a ≠ Unstarted.
Proof.
  intros Hrun Hpc. destruct (reach_inv L size sched s tr Hrun) as [_ Hinv].
  destruct (attrs s) as [a|].
  - destruct Hinv as [_ _ _ _ I5 _ I7 I8 _]. exists a.
    assert (finished_event a = true) as Hfin
      by (by destruct Hpc as [Hc|Hc]; rewrite Hc in I8).
    split_and!; try done; [by apply I7|].
    intros Ht. apply I5 in Ht. rewrite (I7 Hfin) in Ht. done.
  - destruct Hinv as (_ & _ & _ & _ & Hno). by destruct Hpc as [Hc|Hc]; rewrite Hc in Hno.
Qed.

Lemma X3_drain_and_join_after_start_witness :
  ∃ s tr, run L_abc (ahead 4 1 ++ [Abandon; CallClose; Consumer; Consumer]) (new 5)
          = Some (s, tr) ∧
    (consumer s = C84 ∨ consumer s = C88) ∧
    ∃ a, attrs s = Some a ∧ finished_event a = true ∧ started a = true ∧
         thread a ≠ Unstarted.
Proof.
  eexists _, _. split; [vm_compute; reflexivity|]. split; [by right|].
  eapply (X3_drain_and_join_after_start L_abc 5
            (ahead 4 1 ++ [Abandon; CallClose; Consumer; Consumer])).
  - vm_compute; reflexivity.
  - by right.
Defined.

Section Uncaught.
Context (L : DataLoader) (j : nat) (msg : string).
Context (Hclean : ∀ i, (i < j)%nat → clean (_iterate L i)).
Context (Hdata : Forall (λ v, is_data v = true) (items (_iterate L j))).
Context (Hend : ending_of (_iterate L j) = Raises (BaseException msg)).

Lemma uncaught_stream n :
  (j < n)%nat →
  worker_stream L 0 n = worker_stream L 0 j ++ items (_iterate L j) ++ [PyNone].
Proof.
  intros Hn. rewrite (worker_stream_stop L j n); [| |congruence|done].
  - rewrite worker_stream_snoc.
    + unfold pass_stream. by rewrite Hend.
    + by apply all_exhausted_clean.
  - by apply all_exhausted_clean.
Qed.

Lemma uncaught_passes n :
  (j < n)%nat →
  passes (classify L <$> worker_stream L 0 n)
  = (direct L <$> seq 0 j) ++ [(_process_batch L <$> items (_iterate L j), Stopped)].
Proof.
  intros Hn. rewrite uncaught_stream by done. unfold passes.
  rewrite worker_stream_clean by done. f_equal. by rewrite passes_none.
Qed.
End Uncaught.

(** X4: a pass of the source that yields ordinary data and then raises
    something outside [Exception] (a [KeyboardInterrupt], say).
    Asynchronous mode (no close, no dropped iterator, clean passes before
    [j]): [except Exception] does not catch it, so it never reaches the
    caller; pass [j] of [__iter__] yields the batches and stops cleanly, it
    does end, and no later pass ever ends.  Synchronous mode: the same pass
    raises it to the caller. *)
Theorem X4_base_exception_swallowed L size sched s tr j msg :
  Forall plain sched → run L sched (new size) = Some (s, tr) →
  Forall (λ v, is_data v = true) (items (_iterate L j)) →
  ending_of (_iterate L j) = Raises (BaseException msg) →
  (0 < size → (∀ i, (i < j)%nat → clean (_iterate L i)) →
   passes tr `prefix_of`
     (direct L <$> seq 0 j) ++ [(_process_batch L <$> items (_iterate L j), Stopped)] ∧
   ((length (passes tr) ≤ j)%nat →
    (length sched ≤ step_bound (upto L j) size)%nat ∧
    ∃ act, plain act ∧ is_Some (step L act s))) ∧
  (size ≤ 0 →
   ∀ p, passes tr !! j = Some p →
        p = (_process_batch L <$> items (_iterate L j), Raised (BaseException msg))).
Proof.
  intros Hpl Hrun Hdata Hend. split.
  - intros Hpos Hcl. split.
    + rewrite <- (uncaught_passes L j msg Hcl Hdata Hend (S j + iterate_calls s)) by lia.
      eapply async_passes; [done..|lia].
    + intros Hlen. eapply async_live; [done..|].
      pose proof (passes_upto_length L j Hcl). lia.
  - intros Hneg p Hp. rewrite (sync_pass L size sched s tr j p Hneg Hpl Hrun Hp).
    unfold direct, BaseDataLoader.__iter__. by rewrite Hend.
Qed.

Lemma X4_base_exception_swallowed_witness :
  (∃ s tr, run L_interrupt (ahead 9 5) (new 5) = Some (s, tr) ∧
     passes tr `prefix_of`
       (direct L_interrupt <$> seq 0 0)
         ++ [(_process_batch L_interrupt <$> items (_iterate L_interrupt 0), Stopped)] ∧
     ((length (passes tr) ≤ 0)%nat →
      (length (ahead 9 5) ≤ step_bound (upto L_interrupt 0) 5)%nat ∧
      ∃ act, plain act ∧ is_Some (step L_interrupt act s))) ∧
  (∃ s tr, run L_interrupt (CallIter :: consumers 6) (new 0) = Some (s, tr) ∧
     ∀ p, passes tr !! 0%nat = Some p →
          p = (_process_batch L_interrupt <$> items (_iterate L_interrupt 0),
               Raised (BaseException "KeyboardInterrupt"))).
Proof.
  split; eexists _, _; (split; [vm_compute; reflexivity|]).
  - refine (proj1 (X4_base_exception_swallowed L_interrupt 5 (ahead 9 5) _ _ 0
                     "KeyboardInterrupt" _ _ _ _) _ _).
    + apply plain_ahead.
    + vm_compute; reflexivity.
    + repeat constructor.
    + reflexivity.
    + lia.
    + intros i Hi. lia.
  - refine (proj2 (X4_base_exception_swallowed L_interrupt 0 (CallIter :: consumers 6)
                     _ _ 0 "KeyboardInterrupt" _ _ _ _) _).
    + constructor; [done|apply plain_consumers].
    + vm_compute; reflexivity.
    + repeat constructor.
    + reflexivity.
    + lia.
Defined.

(** X5: a loader that does not override [_iterate].  The base method
    raises [NotImplementedError].  Asynchronous mode (no close, no dropped
    iterator): the first pass of [__iter__] raises it without a yield, at
    most two more passes end, both empty, and these passes do end.
    Synchronous mode: every pass raises it without a yield. *)
Theorem X5_iterate_not_implemented L size sched s tr :
  (∀ n, _iterate L n = BaseDataLoader._iterate) →
  Forall plain sched → run L sched (new size) = Some (s, tr) →
  (0 < size →
   passes tr `prefix_of`
     [([], Raised BaseDataLoader.NotImplementedError); ([], Stopped); ([], Stopped)] ∧
   ((length (passes tr) ≤ 2)%nat →
    (length sched ≤ step_bound 3 size)%nat ∧
    ∃ act, plain act ∧ is_Some (step L act s))) ∧
  (size ≤ 0 → ∀ j p, passes tr !! j = Some p → p = ([], Raised BaseDataLoader.NotImplementedError)).
Proof.
  intros Hbase Hpl Hrun. split.
  - intros Hpos.
    assert (∀ i, (i < 0)%nat → clean (_iterate L i)) as Hcl by (intros i Hi; lia).
    assert (Forall (λ v, is_data v = true) (items (_iterate L 0))) as Hdata
      by (rewrite Hbase; constructor).
    assert (ending_of (_iterate L 0) = Raises (Exception "NotImplementedError"))
      as Hend by (by rewrite Hbase).
    split.
    + pose proof (fault_prefix L 0 _ Hcl Hdata Hend eq_refl size sched s tr Hpos Hpl Hrun)
        as H.
      unfold fault_passes in H. by rewrite Hbase in H.
    + intros Hlen.
      replace 3%nat with (upto L 0)
        by (unfold upto; rewrite worker_stream_S, Hbase; done).
      eapply (fault_live L 0 _ Hcl Hdata Hend eq_refl); [done..|lia].
  - intros Hneg j p Hp. rewrite (sync_pass L size sched s tr j p Hneg Hpl Hrun Hp).
    unfold direct, BaseDataLoader.__iter__. by rewrite Hbase.
Qed.

Lemma X5_iterate_not_implemented_witness :
  (∃ s tr, run L_base (ahead 5 1) (new 5) = Some (s, tr) ∧
     passes tr `prefix_of`
       [([], Raised BaseDataLoader.NotImplementedError); ([], Stopped); ([], Stopped)] ∧
     ((length (passes tr) ≤ 2)%nat →
      (length (ahead 5 1) ≤ step_bound 3 5)%nat ∧
      ∃ act, plain act ∧ is_Some (step L_base act s))) ∧
  (∃ s tr, run L_base (CallIter :: consumers 2) (new 0) = Some (s, tr) ∧
     ∀ j p, passes tr !! j = Some p → p = ([], Raised BaseDataLoader.NotImplementedError)).
Proof.
  split; eexists _, _; (split; [vm_compute; reflexivity|]).
  - refine (proj1 (X5_iterate_not_implemented L_base 5 (ahead 5 1) _ _ _ _ _) _).
    + done.
    + apply plain_ahead.
    + vm_compute; reflexivity.
    + lia.
  - refine (proj2 (X5_iterate_not_implemented L_base 0 (CallIter :: consumers 2)
                     _ _ _ _ _) _).
    + done.
    + constructor; [done|apply plain_consumers].
    + vm_compute; reflexivity.
    + lia.
Defined.


Section Signal.
Context (L : DataLoader).


End Signal.



Section Jam.
Context (L : DataLoader).

Lemma step_jammed b pc act s s' evs :
  jammed b pc s → step L act s = Some (s', evs) →
  (EClosed ∉ evs) ∧ ∃ pc', jammed b pc' s' ∧ (jam_rank pc' < jam_rank pc)%nat.
Proof.
  intros Hjam Hstep. unfold jammed in *. rewrite Hjam in Hstep. clear Hjam.
  destruct act; simpl in Hstep; try done.
  destruct pc; step_cases Hstep; simpl.
  all: split; [|eexists; split; [done|simpl; lia]].
  all: repeat (apply not_elem_of_cons; split; [done|]); apply not_elem_of_nil.
Qed.

Lemma run_jammed b sched : ∀ pc s s' tr',
  jammed b pc s → run L sched s = Some (s', tr') →
  consumer s' = C88 ∧ (EClosed ∉ tr') ∧ (length sched ≤ jam_rank pc)%nat.
Proof.
  induction sched as [|act sched IH]; intros pc s s' tr' Hjam Hrun; simpl in Hrun.
  - simplify_eq. rewrite Hjam. split_and!; [done|apply not_elem_of_nil|simpl; lia].
  - destruct (step L act s) as [[s1 evs1]|] eqn:E1; simplify_option_eq.
    destruct (run L sched s1) as [[s2 evs2]|] eqn:E2; simplify_option_eq.
    destruct (step_jammed _ _ _ _ _ _ Hjam E1) as (Hno & pc' & Hjam' & Hlt).
    destruct (IH _ _ _ _ Hjam' E2) as (Hpc & Hno' & Hlen).
    split_and!; [done|by apply not_elem_of_app|simpl; lia].
Qed.
End Jam.

(** X7: [close_async_loader] can block forever.  On a queue of capacity 1,
    with a pass of at least two batches the first of which is ordinary
    data, the schedule [close_race] ends with the caller in [join]; from
    there no execution has more than two steps, none of them the caller's,
    and [close_async_loader] never returns. *)
Theorem X7_close_can_block_forever L b1 b2 rest e :
  _iterate L 0 = Generator (b1 :: b2 :: rest) e → is_data b1 = true →
  ∃ s tr, run L close_race (new 1) = Some (s, tr) ∧ consumer s = C88 ∧
    ∀ sched' s' tr',
      run L sched' s = Some (s', tr') →
      consumer s' = C88 ∧ (EClosed ∉ tr') ∧ (length sched' ≤ 2)%nat.
Proof.
  intros Hit Hb1.
  assert (∃ tr, run L close_race (new 1)
    = Some (State 1 (Some (AsyncAttrs true (Queue.Make 1 [b2])
                             (Running (W98 (Generator rest e))) true)) 1 C88, tr))
    as [tr Hrun].
  { unfold close_race, workers, new. simpl. rewrite Hit. simpl.
    destruct b1 as [|[]|]; try done; simpl; by eexists. }
  eexists _, tr. split; [done|]. split; [done|].
  intros sched' s' tr' Hrun'.
  eapply (run_jammed L b2 sched' (W98 (Generator rest e))); [|done]. done.
Qed.

Lemma X7_close_can_block_forever_witness :
  ∃ s tr, run L_abc close_race (new 1) = Some (s, tr) ∧ consumer s = C88 ∧
    ∀ sched' s' tr',
      run L_abc sched' s = Some (s', tr') →
      consumer s' = C88 ∧ (EClosed ∉ tr') ∧ (length sched' ≤ 2)%nat.
Proof. apply (X7_close_can_block_forever L_abc A B [C] StopIteration); reflexivity. Defined.

Section Drain.
Context (L : DataLoader).

(** The drain loop and the join, once the worker has exited. *)
Lemma run_drain sz fin k st l :
  run L (repeat Consumer (length l + 2))
    (State sz (Some (AsyncAttrs fin (Queue.Make sz l) Exited st)) k C84)
  = Some (State sz (Some (AsyncAttrs fin (Queue.Make sz []) Exited st)) k Caller,
          (EDrain <$> l) ++ [EClosed]).
Proof.
  induction l as [|v l IH]; [done|].
  change (length (v :: l) + 2)%nat with (S (length l + 2)).
  change (repeat Consumer (S (length l + 2)))
    with ([Consumer] ++ repeat Consumer (length l + 2)).
  rewrite run_app.
  assert (run L [Consumer]
            (State sz (Some (AsyncAttrs fin (Queue.Make sz (v :: l)) Exited st)) k C84)
          = Some (State sz (Some (AsyncAttrs fin (Queue.Make sz l) Exited st)) k C84,
                  [EDrain v])) as -> by done.
  simpl. by rewrite IH.
Qed.
End Drain.

(** X8: calling [close_async_loader] again.  When the event is set and the
    caller is in its own code, the worker has exited, and another
    [close_async_loader] returns after draining whatever the worker left:
    it pops every queued object, joins at once, and leaves the queue
    empty. *)
Theorem X8_second_close_returns L size sched s tr a :
  run L sched (new size) = Some (s, tr) →
  attrs s = Some a → finished_event a = true → consumer s = Caller →
  ∃ s' a',
    run L (CallClose :: repeat Consumer (length (Queue.elems (queue a)) + 3)) s
    = Some (s', (EDrain <$> Queue.elems (queue a)) ++ [EClosed]) ∧
    consumer s' = Caller ∧ attrs s' = Some a' ∧
    Queue.elems (queue a') = [] ∧ thread a' = Exited.
Proof.
  intros Hrun Hat Hfin Hpc.
  destruct (reach_inv L size sched s tr Hrun) as [Hsz Hinv]. rewrite Hat in Hinv.
  destruct Hinv as [I1 I2 _ _ _ _ I7 _ I9].
  assert (thread a = Exited) as Ht by (apply I9; [done|by rewrite Hpc..]).
  specialize (I7 Hfin).
  destruct s as [sz at_ k pc]. destruct a as [fin [mx l] t st].
  simpl in Hat, Hfin, Hpc, Ht, I7, I1, I2, Hsz. subst sz mx at_ fin pc t st.
  cbn [Queue.elems queue].
  replace (length l + 3)%nat with (S (length l + 2)) by lia.
  change (CallClose :: repeat Consumer (S (length l + 2)))
    with ([CallClose; Consumer] ++ repeat Consumer (length l + 2)).
  assert (run L [CallClose; Consumer]
            (State size (Some (AsyncAttrs true (Queue.Make size l) Exited true)) k Caller)
          = Some (State size (Some (AsyncAttrs true (Queue.Make size l) Exited true)) k C84,
                  [])) as Hclose.
  { simpl. by assert ((0 <? size) = true) as -> by (by apply Z.ltb_lt). }
  eexists _, _. split.
  - rewrite run_app, Hclose. simpl. rewrite run_drain. simpl. reflexivity.
  - done.
Qed.

Lemma X8_second_close_returns_witness :
  ∃ s tr a,
    run L_abc (ahead 7 1 ++ [Abandon; CallClose; Consumer; Consumer; Consumer]
                 ++ workers 5 ++ [Consumer]) (new 5) = Some (s, tr) ∧
    attrs s = Some a ∧ finished_event a = true ∧ consumer s = Caller ∧
    ∃ s' a',
      run L_abc (CallClose :: repeat Consumer (length (Queue.elems (queue a)) + 3)) s
      = Some (s', (EDrain <$> Queue.elems (queue a)) ++ [EClosed]) ∧
      consumer s' = Caller ∧ attrs s' = Some a' ∧
      Queue.elems (queue a') = [] ∧ thread a' = Exited.
Proof.
  eexists _, _, _. split; [vm_compute; reflexivity|].
  split; [reflexivity|]. split; [reflexivity|]. split; [reflexivity|].
  eapply (X8_second_close_returns L_abc 5
            (ahead 7 1 ++ [Abandon; CallClose; Consumer; Consumer; Consumer]
               ++ workers 5 ++ [Consumer])).
  - vm_compute; reflexivity.
  - reflexivity.
  - reflexivity.
  - reflexivity.
Defined.
